(** * User-agent classification of the polyfill library ([lib/UA.js])

    A shallow embedding of [packages/polyfill-library/lib/UA.js]: the
    constructor [UA] with its two shortcuts, the noise-stripping rewrites,
    the alias tables and the nearest-match scan over per-version alias maps,
    the process-wide LRU cache, and the query methods ([getFamily],
    [getVersion], [satisfies], [meetsBaseline], [isUnknown], [normalize]).

    Conventions of the embedding.
    - A JavaScript string is a [string]: a sequence of 8-bit code units
      (what Node hands over for a header value).
    - The [useragent] package's regular-expression table and the [semver]
      package are collaborators outside this repository: they are Section
      variables ([ua_regexps], [agent_satisfies]).  The small parts of
      [useragent] the module relies on (the [Agent] constructor with its
      [||] defaults, [toVersion]) are written out.
    - Numbers that occur as version components are rendered in decimal:
      every operation the module applies to them ([Number], string
      concatenation) treats the number [68] and the string ['68'] alike.
    - A call that can raise returns an [outcome]: the range test of
      [useragent/features] raises a [TypeError] on some records, and the
      module catches nothing, so the exception leaves the constructor or
      the query method that made the call.
    - A property read on an object literal also finds the names every
      object inherits from [Object.prototype] ([js_get], [js_in]). *)

From Stdlib Require Import Ascii String NArith DecimalString.
From stdpp Require Import base tactics option list strings gmap.

Local Open Scope N_scope.

(** ** Characters and strings *)

Module Js.

(** [\d] *)
Definition is_digit (c : ascii) : bool :=
  let n := N_of_ascii c in (48 <=? n) && (n <=? 57).

(** [\w], which is [[A-Za-z0-9_]] also under the [i] flag. *)
Definition is_word (c : ascii) : bool :=
  let n := N_of_ascii c in
  ((65 <=? n) && (n <=? 90)) || ((97 <=? n) && (n <=? 122))
  || is_digit c || (n =? 95).

(** [String.prototype.toLowerCase] on one code unit below 256: the ASCII
    capitals and the Latin-1 capitals (all of U+00C0..U+00DE but the
    multiplication sign) move up by 32. *)
Definition lower_char (c : ascii) : ascii :=
  let n := N_of_ascii c in
  if ((65 <=? n) && (n <=? 90))
     || ((192 <=? n) && (n <=? 222) && negb (n =? 215))
  then ascii_of_N (n + 32) else c.

Fixpoint toLowerCase (s : string) : string :=
  match s with
  | EmptyString => EmptyString
  | String c s' => String (lower_char c) (toLowerCase s')
  end.

(** [s.substr(0, n)] *)
Fixpoint substr0 (n : nat) (s : string) : string :=
  match n, s with
  | S n', String c s' => String c (substr0 n' s')
  | _, _ => EmptyString
  end.

Fixpoint all_chars (p : ascii -> bool) (s : string) : bool :=
  match s with
  | EmptyString => true
  | String c s' => p c && all_chars p s'
  end.

(** The longest prefix of [s] made of [p] characters, and what follows. *)
Fixpoint span (p : ascii -> bool) (s : string) : string * string :=
  match s with
  | EmptyString => (EmptyString, EmptyString)
  | String c s' =>
      if p c then let '(a, b) := span p s' in (String c a, b)
      else (EmptyString, s)
  end.

(** [s.split('.')] *)
Fixpoint split_dots (s : string) : list string :=
  match s with
  | EmptyString => [EmptyString]
  | String c s' =>
      if Ascii.eqb c "."%char then EmptyString :: split_dots s'
      else match split_dots s' with
           | [] => [String c EmptyString]
           | x :: xs => String c x :: xs
           end
  end.

(** A JavaScript number, as far as this module meets them: a natural
    number, or [NaN]. *)
Inductive num := Num (n : N) | NaN.

Fixpoint digits_value (acc : N) (s : string) : N :=
  match s with
  | EmptyString => acc
  | String c s' => digits_value (10 * acc + (N_of_ascii c - 48)) s'
  end.

(** [Number(s)] for the strings that reach it here: the empty string is 0,
    a run of decimal digits is its value, anything else is [NaN].  (The
    signed, fractional, hexadecimal, exponent and blank-padded literals
    that [Number] also reads are never produced by a [\d+] capture or cut
    out of a table key by [split('.')]; the value is exact below 2^53.) *)
Definition Number (s : string) : num :=
  if all_chars is_digit s then Num (digits_value 0 s) else NaN.

(** [Math.abs(a - b)] *)
Definition abs_diff (a b : num) : num :=
  match a, b with
  | Num x, Num y => Num (if x <? y then y - x else x - y)
  | _, _ => NaN
  end.

(** [a <= b]: false as soon as one side is [NaN]. *)
Definition num_le (a b : num) : bool :=
  match a, b with
  | Num x, Num y => x <=? y
  | _, _ => false
  end.

(** [Number(s) || 0] *)
Definition Number_or_0 (s : string) : N :=
  match Number s with Num n => n | NaN => 0 end.

(** Decimal rendering of a number ([68 + ''] is ['68']). *)
Definition dec (n : N) : string := NilZero.string_of_uint (N.to_uint n).

Definition MAX_SAFE_INTEGER : N := 9007199254740991.

End Js.

(** ** A backtracking matcher for the noise patterns

    The four patterns of the sanitizer use literals, character classes,
    concatenation, alternation and greedy [+]; [String.prototype.replace]
    with a pattern without the [g] flag rewrites the leftmost match, the
    match at a position being the first one in backtracking order. *)

Module Regex.

Inductive regex :=
| Chr (p : ascii -> bool)
| Cat (r1 r2 : regex)
| Alt (r1 r2 : regex)
| Plus (r : regex).

(** [rmatch r s k]: match [r] at the head of [s] and hand the rest of the
    string to the continuation [k]; when [k] refuses, backtrack. *)
Fixpoint rmatch (r : regex) (s : string) (k : string -> option string)
  : option string :=
  match r with
  | Chr p =>
      match s with
      | String c s' => if p c then k s' else None
      | EmptyString => None
      end
  | Cat r1 r2 => rmatch r1 s (fun s' => rmatch r2 s' k)
  | Alt r1 r2 =>
      match rmatch r1 s k with
      | Some x => Some x
      | None => rmatch r2 s k
      end
  | Plus r1 =>
      (fix iter (fuel : nat) (s : string) : option string :=
         rmatch r1 s (fun s' =>
           match fuel with
           | O => k s'
           | S fuel' =>
               let again :=
                 if (String.length s' <? String.length s)%nat
                 then iter fuel' s' else None in
               match again with
               | Some x => Some x
               | None => k s'
               end
           end)) (String.length s) s
  end.

(** [s.replace(r, '')] *)
Fixpoint remove_first (r : regex) (s : string) : string :=
  match rmatch r s Some with
  | Some rest => rest
  | None =>
      match s with
      | EmptyString => EmptyString
      | String c s' => String c (remove_first r s')
      end
  end.

Definition chr (c : ascii) : regex := Chr (Ascii.eqb c).
(** A literal character under the [i] flag. *)
Definition chr_i (c : ascii) : regex :=
  Chr (fun x => Ascii.eqb (Js.lower_char x) (Js.lower_char c)).

Fixpoint lit_with (f : ascii -> regex) (c : ascii) (s : string) : regex :=
  match s with
  | EmptyString => f c
  | String c' s' => Cat (f c) (lit_with f c' s')
  end.

(** A literal word; the empty word does not occur. *)
Definition lit (s : string) : regex :=
  match s with
  | EmptyString => Chr (fun _ => false)
  | String c s' => lit_with chr c s'
  end.
Definition lit_i (s : string) : regex :=
  match s with
  | EmptyString => Chr (fun _ => false)
  | String c s' => lit_with chr_i c s'
  end.

Definition digits : regex := Plus (Chr Js.is_digit).
(** [[\d\.]+\d+] *)
Definition dotted : regex :=
  Cat (Plus (Chr (fun c => Js.is_digit c || Ascii.eqb c "."%char))) digits.

End Regex.

(** ** The agent record of the [useragent] package *)

Record Agent := mkAgent {
  family : string;
  major : string;
  minor : string;
  patch : string
}.

(** [x || d] on strings: the empty string (like [undefined] and the number
    0) is falsy. *)
Definition or_else (x d : string) : string :=
  match x with
  | EmptyString => d
  | _ => x
  end.

(** Modelled from the spec: the record constructor of the [useragent]
    package, which is not in this repository,
    [new useragent.Agent(family, major, minor, patch)]: a missing (falsy)
    version component defaults to 0 (section 4.2), a missing family to the
    package's ['Other']. *)
Definition newAgent (f ma mi pa : string) : Agent :=
  {| family := or_else f "Other";
     major := or_else ma "0";
     minor := or_else mi "0";
     patch := or_else pa "0" |}.

(** Modelled from the spec: [Agent.prototype.toVersion] of the [useragent]
    package, the dotted [major.minor.patch] string (section 6).  The
    package joins the components it finds truthy, and sets a patch that is
    not a number off by a blank instead of a dot. *)
Definition toVersion (ua : Agent) : string :=
  match major ua with
  | EmptyString => ""
  | _ =>
      major ua +:+
      match minor ua with
      | EmptyString => ""
      | _ =>
          "." +:+ minor ua +:+
          match patch ua with
          | EmptyString => ""
          | _ =>
              (match Js.Number (patch ua) with
               | Js.NaN => " "
               | Js.Num _ => "."
               end) +:+ patch ua
          end
      end
  end.

(** ** Tables *)

Definition MAX_UA_LEN : nat := 300.

(** An alias array [[family, major, minor, patch]]; the last two slots may
    be missing. *)
Record Target := mkTarget {
  t_family : string;
  t_major : N;
  t_minor : option N;
  t_patch : option N
}.

Definition tgt (f : string) (ma : N) : Target :=
  {| t_family := f; t_major := ma; t_minor := None; t_patch := None |}.

(** The four formats of an alias, by the comment that heads the table. *)
Inductive AliasRule :=
| Rename (target : string)
| RenameWithVersion (a : Target)
| VersionMap (entries : list (string * Target))
| Computed (f : Agent -> Agent).

Definition baseLineVersions_table : list (string * string) :=
  [ ("ie", ">=7");
    ("ie_mob", ">=8");
    ("chrome", "*");
    ("safari", ">=4");
    ("ios_saf", ">=4");
    ("ios_chr", ">=4");
    ("firefox", ">=3.6");
    ("firefox_mob", ">=4");
    ("android", ">=3");
    ("opera", ">=11");
    ("op_mob", ">=10");
    ("op_mini", ">=5");
    ("bb", ">=6");
    ("samsung_mob", ">=4") ].

Definition baseLineVersions : gmap string string :=
  list_to_map baseLineVersions_table.

Definition uc_browser_map : list (string * Target) :=
  [ ("10", tgt "uc browser" 0);
    ("9.9.*", tgt "ie" 10) ].

Definition yandex_browser_map : list (string * Target) :=
  [ ("18.9", tgt "chrome" 68); ("18.7", tgt "chrome" 67);
    ("18.6", tgt "chrome" 66); ("18.5", tgt "chrome" 65);
    ("18.4", tgt "chrome" 65); ("18.3", tgt "chrome" 64);
    ("18.2", tgt "chrome" 63); ("18.1", tgt "chrome" 63);
    ("17.11", tgt "chrome" 62); ("17.10", tgt "chrome" 61);
    ("17.9", tgt "chrome" 60); ("17.8", tgt "chrome" 59);
    ("17.7", tgt "chrome" 59); ("17.6", tgt "chrome" 58);
    ("17.5", tgt "chrome" 57); ("17.4", tgt "chrome" 57);
    ("17.3", tgt "chrome" 56); ("17.2", tgt "chrome" 55);
    ("17.1", tgt "chrome" 55); ("16.11", tgt "chrome" 54);
    ("16.10", tgt "chrome" 51); ("16.9", tgt "chrome" 51);
    ("16.8", tgt "chrome" 51); ("16.7", tgt "chrome" 51);
    ("16.6", tgt "chrome" 50); ("16.5", tgt "chrome" 49);
    ("16.4", tgt "chrome" 49); ("16.3", tgt "chrome" 47);
    ("16.2", tgt "chrome" 47); ("16.1", tgt "chrome" 47);
    ("15.12", tgt "chrome" 46); ("15.11", tgt "chrome" 45);
    ("15.10", tgt "chrome" 45); ("15.9", tgt "chrome" 44);
    ("15.8", tgt "chrome" 43); ("15.7", tgt "chrome" 43);
    ("15.6", tgt "chrome" 42); ("15.5", tgt "chrome" 41);
    ("15.4", tgt "chrome" 41); ("15.3", tgt "chrome" 40);
    ("15.2", tgt "chrome" 40); ("15.1", tgt "chrome" 40);
    ("14.10", tgt "chrome" 37); ("14.9", tgt "chrome" 36);
    ("14.8", tgt "chrome" 36); ("14.7", tgt "chrome" 35);
    ("14.6", tgt "chrome" 34); ("14.5", tgt "chrome" 34);
    ("14.4", tgt "chrome" 33); ("14.3", tgt "chrome" 32);
    ("14.2", tgt "chrome" 32); ("13.12", tgt "chrome" 30);
    ("13.10", tgt "chrome" 28) ].

Definition opera_map : list (string * Target) :=
  [ ("20", tgt "chrome" 33); ("21", tgt "chrome" 34);
    ("22", tgt "chrome" 35); ("23", tgt "chrome" 36);
    ("24", tgt "chrome" 37); ("25", tgt "chrome" 38);
    ("26", tgt "chrome" 39); ("27", tgt "chrome" 40);
    ("28", tgt "chrome" 41); ("29", tgt "chrome" 42);
    ("30", tgt "chrome" 43); ("31", tgt "chrome" 44);
    ("32", tgt "chrome" 45); ("33", tgt "chrome" 46);
    ("34", tgt "chrome" 47); ("35", tgt "chrome" 48);
    ("36", tgt "chrome" 49); ("37", tgt "chrome" 50);
    ("38", tgt "chrome" 51); ("39", tgt "chrome" 52);
    ("40", tgt "chrome" 53); ("41", tgt "chrome" 54);
    ("42", tgt "chrome" 55); ("43", tgt "chrome" 56);
    ("44", tgt "chrome" 57); ("45", tgt "chrome" 58);
    ("46", tgt "chrome" 59); ("47", tgt "chrome" 60) ].

Definition googlebot_map : list (string * Target) :=
  [ ("2.1", tgt "chrome" 41) ].

Definition aliases_table : list (string * AliasRule) :=
  [ ("blackberry webkit", Rename "bb");
    ("blackberry", Rename "bb");
    ("pale moon (firefox variant)", Rename "firefox");
    ("pale moon", Rename "firefox");
    ("firefox mobile", Rename "firefox_mob");
    ("firefox namoroka", Rename "firefox");
    ("firefox shiretoko", Rename "firefox");
    ("firefox minefield", Rename "firefox");
    ("firefox alpha", Rename "firefox");
    ("firefox beta", Rename "firefox");
    ("microb", Rename "firefox");
    ("mozilladeveloperpreview", Rename "firefox");
    ("iceweasel", Rename "firefox");
    ("opera tablet", Rename "opera");
    ("opera mobile", Rename "op_mob");
    ("opera mini", Rename "op_mini");
    ("chrome mobile", Rename "chrome");
    ("chrome frame", Rename "chrome");
    ("chromium", Rename "chrome");
    ("headlesschrome", Rename "chrome");
    ("ie mobile", Rename "ie_mob");
    ("ie large screen", Rename "ie");
    ("internet explorer", Rename "ie");
    ("edge", Rename "ie");
    ("edge mobile", Rename "ie");
    ("uc browser", VersionMap uc_browser_map);
    ("chrome mobile ios", Rename "ios_chr");
    ("mobile safari", Rename "ios_saf");
    ("iphone", Rename "ios_saf");
    ("iphone simulator", Rename "ios_saf");
    ("mobile safari uiwebview", Rename "ios_saf");
    ("mobile safari ui/wkwebview", Rename "ios_saf");
    ("samsung internet", Rename "samsung_mob");
    ("phantomjs", RenameWithVersion (tgt "safari" 5));
    ("yandex browser", VersionMap yandex_browser_map);
    ("opera", VersionMap opera_map);
    ("googlebot", VersionMap googlebot_map) ].

Definition aliases : gmap string AliasRule := list_to_map aliases_table.

(** ** Sanitizer: the four rewrites of lines 216-226 *)

Import Regex.

(** [/((CriOS|OPiOS)\/(\d+)\.(\d+)\.(\d+)\.(\d+)|(FxiOS\/(\d+)\.(\d+)))/] *)
Definition re_ios : regex :=
  Alt (Cat (Alt (lit "CriOS") (lit "OPiOS"))
        (Cat (chr "/") (Cat digits (Cat (chr ".") (Cat digits
          (Cat (chr ".") (Cat digits (Cat (chr ".") digits))))))))
      (Cat (lit "FxiOS/") (Cat digits (Cat (chr ".") digits))).

(** [/ vivaldi\/[\d\.]+\d+/i] *)
Definition re_vivaldi : regex := Cat (lit_i " vivaldi/") dotted.

(** [/ \[(FB_IAB|FBAN|FBIOS|FB4A)\/[^\]]+\]/i] *)
Definition re_facebook : regex :=
  Cat (lit_i " [")
   (Cat (Alt (lit_i "FB_IAB") (Alt (lit_i "FBAN")
          (Alt (lit_i "FBIOS") (lit_i "FB4A"))))
    (Cat (chr "/")
     (Cat (Plus (Chr (fun c => negb (Ascii.eqb c "]"%char)))) (chr "]")))).

(** [/ Electron\/[\d\.]+\d+/i] *)
Definition re_electron : regex := Cat (lit_i " Electron/") dotted.

Definition strip_noise (uaString : string) : string :=
  let uaString := remove_first re_ios uaString in
  let uaString := remove_first re_vivaldi uaString in
  let uaString := remove_first re_facebook uaString in
  remove_first re_electron uaString.

(** ** The canonical shape [name/major[.minor[.patch]]] *)

(** What a match or a cache entry hands to the [Agent] constructor: the
    array whose slots 1 to 4 are read on line 208 (slot 0 is the whole
    match, or the empty string of a cache entry). *)
Record Normalized := mkNormalized {
  n0 : string;
  n1 : string;
  n2 : string;
  n3 : option string;
  n4 : option string
}.

Definition nonempty (s : string) : bool :=
  match s with EmptyString => false | _ => true end.

(** [\d+] on a whole string *)
Definition digits_run (s : string) : bool :=
  nonempty s && Js.all_chars Js.is_digit s.

(** [/^(\w+)\/(\d+)(?:\.(\d+)(?:\.(\d+))?)?$/i].  The pattern is anchored
    at both ends and [\w] excludes the slash, [\d] the dot, so a string
    has at most one way to match: the word characters up to the first
    slash, then one to three dot-separated runs of digits. *)
Definition match_normalized (s : string) : option Normalized :=
  let '(name, rest) := Js.span Js.is_word s in
  match rest with
  | String c version =>
      if Ascii.eqb c "/" && nonempty name then
        match Js.split_dots version with
        | [a] =>
            if digits_run a
            then Some (mkNormalized s name a None None) else None
        | [a; b] =>
            if digits_run a && digits_run b
            then Some (mkNormalized s name a (Some b) None) else None
        | [a; b; c] =>
            if digits_run a && digits_run b && digits_run c
            then Some (mkNormalized s name a (Some b) (Some c)) else None
        | _ => None
        end
      else None
  | EmptyString => None
  end.

(** ** Values, exceptions, property reads *)

(** The result of a call that may raise. *)
Inductive outcome (A : Type) : Type :=
| Returns (a : A)
| Throws.
Arguments Returns {A} a.
Arguments Throws {A}.

(** The values a range argument takes in this module: [undefined], a
    string, or what a property read finds on [Object.prototype] under an
    inherited name (a function, or the prototype itself). *)
Inductive jsval :=
| JUndefined
| JString (s : string)
| JInherited (name : string).

(** The property names of [Object.prototype]. *)
Definition Object_prototype : list string :=
  [ "constructor"; "__defineGetter__"; "__defineSetter__"; "hasOwnProperty";
    "__lookupGetter__"; "__lookupSetter__"; "isPrototypeOf";
    "propertyIsEnumerable"; "toString"; "valueOf"; "__proto__";
    "toLocaleString" ].

(** [o[k]] on an object literal with string values. *)
Definition js_get (o : gmap string string) (k : string) : jsval :=
  match o !! k with
  | Some v => JString v
  | None => if bool_decide (k ∈ Object_prototype) then JInherited k
            else JUndefined
  end.

(** [k in o] *)
Definition js_in (o : gmap string string) (k : string) : bool :=
  bool_decide (is_Some (o !! k)) || bool_decide (k ∈ Object_prototype).

(** ** The result cache ([lru-cache], [max: 5000]) *)

(** Most recently used entry first. *)
Definition Cache : Type := list (string * Normalized).

Definition cache_max : nat := 5000.

Fixpoint assoc (k : string) (c : Cache) : option Normalized :=
  match c with
  | [] => None
  | (k', v) :: c' => if decide (k' = k) then Some v else assoc k c'
  end.

Definition drop_key (k : string) (c : Cache) : Cache :=
  filter (fun p => p.1 ≠ k) c.

(** What classification does to the outside: reads and writes of the cache
    and calls of the [useragent] parser. *)
Inductive Event :=
| EvCacheGet (key : string)
| EvCacheSet (key : string) (value : Normalized)
| EvParse (input : string).

(** Computations that thread the cache, record their events and may
    raise; an exception ends the computation and leaves the cache and the
    events as they were when it was raised. *)
Definition M (A : Type) : Type := Cache -> outcome A * Cache * list Event.

#[global] Instance M_ret : MRet M := fun A x c => (Returns x, c, []).
#[global] Instance M_bind : MBind M := fun A B f m c =>
  let '(x, c1, l1) := m c in
  match x with
  | Returns a => let '(y, c2, l2) := f a c1 in (y, c2, l1 ++ l2)
  | Throws => (Throws, c1, l1)
  end.

(** A call that touches neither the cache nor the parser. *)
Definition lift {A} (o : outcome A) : M A := fun c => (o, c, []).

Definition result {A} (r : outcome A * Cache * list Event) : outcome A :=
  r.1.1.
Definition cache_after {A} (r : outcome A * Cache * list Event) : Cache :=
  r.1.2.
Definition events {A} (r : outcome A * Cache * list Event) : list Event :=
  r.2.

(** Modelled from the spec: [cache.get(key)] of the [lru-cache] package
    (section 4.5); a hit makes the entry the most recent one. *)
Definition cache_get (key : string) : M (option Normalized) := fun c =>
  match assoc key c with
  | Some v => (Returns (Some v), (key, v) :: drop_key key c, [EvCacheGet key])
  | None => (Returns None, c, [EvCacheGet key])
  end.

(** Modelled from the spec: [cache.set(key, value)] of the [lru-cache]
    package (section 4.5); the entry becomes the most recent one and the
    least recent ones beyond the capacity are evicted. *)
Definition cache_set (key : string) (value : Normalized) : M () := fun c =>
  (Returns (), take cache_max ((key, value) :: drop_key key c),
   [EvCacheSet key value]).

(** ** Iteration order of [for ... in]

    The keys that are array indices come first, in ascending numeric
    order, then the other keys in the order they were written. *)

Definition is_index (k : string) : bool :=
  nonempty k && Js.all_chars Js.is_digit k
  && String.eqb (Js.dec (Js.digits_value 0 k)) k
  && (Js.digits_value 0 k <? 4294967295).

Fixpoint insert_by_index {A} (e : string * A) (l : list (string * A))
  : list (string * A) :=
  match l with
  | [] => [e]
  | e' :: l' =>
      if Js.digits_value 0 e.1 <=? Js.digits_value 0 e'.1 then e :: l
      else e' :: insert_by_index e l'
  end.

Definition for_in_order {A} (l : list (string * A)) : list (string * A) :=
  foldr insert_by_index [] (filter (fun e => is_index e.1 = true) l)
  ++ filter (fun e => is_index e.1 ≠ true) l.

(** ** Baseline membership *)

(** [family in baseLineVersions] (line 309): true for the keys of the
    table and for the inherited names. *)
Definition in_baseLineVersions (f : string) : bool :=
  js_in baseLineVersions f.

(** [Object.keys(baseLineVersions).indexOf(family) === -1] (line 320):
    [Object.keys] lists the table's own keys only. *)
Definition not_a_key (f : string) : bool :=
  bool_decide (f ∉ (map_to_list baseLineVersions).*1).

(** The call sites of [Agent.prototype.satisfies] in the query methods:
    with the caller's range (line 308) or with what the table yields for
    the family (lines 310 and 317). *)
Inductive Probe :=
| Requested (range : jsval)
| Baseline (range : jsval).

(** Queries, with the range tests they perform; a test that raises ends
    the query. *)
Definition Q (A : Type) : Type := outcome A * list Probe.

#[global] Instance Q_ret : MRet Q := fun A x => (Returns x, []).
#[global] Instance Q_bind : MBind Q := fun A B f m =>
  match m.1 with
  | Returns a => let '(y, l2) := f a in (y, m.2 ++ l2)
  | Throws => (Throws, m.2)
  end.

Section Collaborators.

(** The parser's table of regular expressions: for an input, the captured
    family and version components ([""] for a missing capture). *)
Variable ua_regexps : string -> string * string * string * string.

(** [Agent.prototype.satisfies(range)], which [useragent/features] adds on
    top of the [semver] package: it answers, or it raises. *)
Variable agent_satisfies : Agent -> jsval -> outcome bool.

(** [useragent.parse(uaString)]: whatever the table captures goes through
    the [Agent] constructor. *)
Definition useragent_parse (uaString : string) : M Agent := fun c =>
  let '(f, ma, mi, pa) := ua_regexps uaString in
  (Returns (newAgent f ma mi pa), c, [EvParse uaString]).

(** *** Alias resolution (lines 235-293) *)

(** [new useragent.Agent(a[0], a[1], (a[2] || 0), (a[3] || 0))] *)
Definition agent_of_target (a : Target) : Agent :=
  newAgent (t_family a) (Js.dec (t_major a))
    (Js.dec (default 0 (t_minor a))) (Js.dec (default 0 (t_patch a))).

Record Diff := mkDiff {
  d_major : Js.num;
  d_minor : Js.num;
  lastUa : Agent
}.

(** [Number(part || 0)] for a component of [semverExpr.split('.')] *)
Definition part_number (part : option string) : Js.num :=
  match part with
  | Some s => Js.Number s
  | None => Js.Num 0
  end.

(** Lines 273-279. *)
Definition curr_diff (this_ua : Agent) (semverExpr : string) (ua : Agent)
  : Diff :=
  let parts := take 2 (Js.split_dots semverExpr) in
  let semverMajor := parts !! 0%nat in
  let semverMinor := parts !! 1%nat in
  {| d_major := Js.abs_diff (Js.Number (major this_ua)) (part_number semverMajor);
     d_minor := Js.abs_diff (Js.Number (minor this_ua)) (part_number semverMinor);
     lastUa := ua |}.

(** Lines 281-287. *)
Definition track (minDiff currDiff : Diff) : Diff :=
  if Js.num_le (d_major currDiff) (d_major minDiff) then
    if Js.num_le (d_minor currDiff) (d_minor minDiff) then
      {| d_major := d_major currDiff;
         d_minor := d_minor currDiff;
         lastUa := lastUa currDiff |}
    else
      {| d_major := d_major currDiff;
         d_minor := d_minor minDiff;
         lastUa := lastUa minDiff |}
  else minDiff.

(** The loop of lines 260-289 over the entries in iteration order; every
    entry of a per-version map is an array, so the guard of line 261
    holds.  The range test of line 266 may raise, which ends the loop and
    the constructor. *)
Fixpoint scan (this_ua : Agent) (entries : list (string * Target))
    (minDiff : Diff) : outcome Diff :=
  match entries with
  | [] => Returns minDiff
  | (semverExpr, a) :: rest =>
      let ua := agent_of_target a in
      match agent_satisfies this_ua (JString semverExpr) with
      | Throws => Throws
      | Returns true =>
          Returns {| d_major := d_major minDiff;
                     d_minor := d_minor minDiff;
                     lastUa := ua |}
      | Returns false =>
          scan this_ua rest (track minDiff (curr_diff this_ua semverExpr ua))
      end
  end.

Definition resolve_version_map (this_ua : Agent)
    (entries : list (string * Target)) : outcome Agent :=
  let minDiff :=
    {| d_major := Js.Num Js.MAX_SAFE_INTEGER;
       d_minor := Js.Num Js.MAX_SAFE_INTEGER;
       lastUa := this_ua |} in
  match scan this_ua (for_in_order entries) minDiff with
  | Returns d => Returns (lastUa d)
  | Throws => Throws
  end.

(** Lines 235-293, on a record whose family was lowercased on line 234.
    Of the inherited names only [constructor] and [__proto__] are
    lowercase; [aliases.constructor] is the function [Object], which hands
    the record back, and [aliases.__proto__] is an object without
    enumerable keys, over which the loop of line 260 does not run: like a
    family without an alias, both leave the record as it is. *)
Definition resolve_aliases (ua : Agent) : outcome Agent :=
  match aliases !! family ua with
  | None => Returns ua
  | Some (Computed f) => Returns (f ua)
  | Some (Rename target) =>
      Returns {| family := target; major := major ua;
                 minor := minor ua; patch := patch ua |}
  | Some (RenameWithVersion a) => Returns (agent_of_target a)
  | Some (VersionMap entries) => resolve_version_map ua entries
  end.

(** *** The constructor (lines 195-296) *)

(** [x || 0] handed to the [Agent] constructor. *)
Definition or_0 (x : option string) : string :=
  match x with
  | Some s => or_else s "0"
  | None => "0"
  end.

(** Line 203: [(uaString.length < 22) && uaString.match(...)]. *)
Definition shape_test (uaString : string) : option Normalized :=
  if (String.length uaString <? 22)%nat then match_normalized uaString
  else None.

Definition UA (uaString : string) : M Agent :=
  let uaString := Js.substr0 MAX_UA_LEN uaString in
  normalized ← match shape_test uaString with
               | Some n => mret (Some n)
               | None => cache_get uaString
               end;
  match normalized with
  | Some n => mret (newAgent (n1 n) (n2 n) (or_0 (n3 n)) (or_0 (n4 n)))
  | None =>
      let uaString := strip_noise uaString in
      ua ← useragent_parse uaString;
      let ua := {| family := family ua; major := major ua;
                   minor := minor ua; patch := "0" |} in
      let ua := {| family := Js.toLowerCase (family ua); major := major ua;
                   minor := minor ua; patch := patch ua |} in
      ua ← lift (resolve_aliases ua);
      _ ← cache_set uaString
            (mkNormalized "" (family ua) (major ua)
               (Some (minor ua)) (Some (patch ua)));
      mret ua
  end.

(** *** Query methods (lines 298-329); [this.ua] is the argument *)

Definition getFamily (ua : Agent) : string := family ua.

Definition getVersion (ua : Agent) : string := toVersion ua.

Definition probe (site : jsval -> Probe) (ua : Agent) (range : jsval)
  : Q bool :=
  (agent_satisfies ua range, [site range]).

Definition satisfies_q (ua : Agent) (range : jsval) : Q bool :=
  probe Requested ua range ≫= λ a : bool,
  if a then
    if in_baseLineVersions (family ua)
    then probe Baseline ua (js_get baseLineVersions (family ua))
    else mret false
  else mret false.

Definition getBaseline (ua : Agent) : jsval :=
  js_get baseLineVersions (family ua).

Definition meetsBaseline_q (ua : Agent) : Q bool :=
  probe Baseline ua (js_get baseLineVersions (family ua)).

Definition isUnknown_q (ua : Agent) : Q bool :=
  if not_a_key (family ua) then mret true
  else meetsBaseline_q ua ≫= λ b : bool, mret (negb b).

Definition satisfies (ua : Agent) (range : jsval) : outcome bool :=
  (satisfies_q ua range).1.
Definition meetsBaseline (ua : Agent) : outcome bool :=
  (meetsBaseline_q ua).1.
Definition isUnknown (ua : Agent) : outcome bool := (isUnknown_q ua).1.

Definition normalize (uaString : string) : M string :=
  match match_normalized uaString with
  | Some _ => mret (Js.toLowerCase uaString)
  | None =>
      ua ← UA uaString;
      mret (getFamily ua +:+ "/" +:+ getVersion ua)
  end.

End Collaborators.

(** ** Stand-ins for the collaborators, to run the module on examples *)

Module Demo.

Definition num_is (s : string) (n : N) : bool :=
  match Js.Number s with
  | Js.Num m => m =? n
  | Js.NaN => false
  end.

(** [>=a] and [>=a.b] *)
Definition at_least (r : string) (vmajor vminor : N) : option bool :=
  match Js.Number <$> Js.split_dots r with
  | [Js.Num a] => Some (a <=? vmajor)
  | [Js.Num a; Js.Num b] =>
      Some ((a <? vmajor) || ((a =? vmajor) && (b <=? vminor)))
  | _ => None
  end.

(** [a], [a.b] and [a.b.*] *)
Definition starts_so (r : string) (vmajor vminor : N) : option bool :=
  match Js.split_dots r with
  | [a] => if digits_run a then Some (num_is a vmajor) else None
  | [a; b] =>
      if digits_run a && digits_run b
      then Some (num_is a vmajor && num_is b vminor) else None
  | [a; b; c] =>
      if digits_run a && digits_run b && String.eqb c "*"
      then Some (num_is a vmajor && num_is b vminor) else None
  | _ => None
  end.

(** The range shapes of the two tables, read the way [semver] reads them:
    [*], [>=a], [>=a.b], and the partial versions [a], [a.b], [a.b.*],
    which stand for every version that starts so.  [None]: no range this
    stand-in reads. *)
Definition read_range (r : string) (vmajor vminor : N) : option bool :=
  if String.eqb r "*" then Some true
  else if String.eqb (Js.substr0 2 r) ">="
  then at_least (String.substring 2 (String.length r) r) vmajor vminor
  else starts_so r vmajor vminor.

(** [semver.satisfies(version, range)]: [false] for what is no range (the
    package catches its own error there); for a range, a [TypeError] when
    a component of the version is above 2^53 - 1, else the test. *)
Definition semver_satisfies (v : N * N * N) (range : jsval) : outcome bool :=
  match range with
  | JString r =>
      match read_range r v.1.1 v.1.2 with
      | Some b =>
          if (v.1.1 <=? Js.MAX_SAFE_INTEGER) && (v.1.2 <=? Js.MAX_SAFE_INTEGER)
             && (v.2 <=? Js.MAX_SAFE_INTEGER)
          then Returns b else Throws
      | None => Returns false
      end
  | _ => Returns false
  end.

Definition electron_ua : string :=
  "Mozilla/5.0 (X11; Linux x86_64) AppleWebKit/537.36 (KHTML, like Gecko) Chrome/56.0.2924.87 Electron/1.6.2 Safari/537.36".

Definition chrome_ua : string :=
  "Mozilla/5.0 (X11; Linux x86_64) AppleWebKit/537.36 (KHTML, like Gecko) Chrome/56.0.2924.87 Safari/537.36".

Definition yandex_ua : string :=
  "Mozilla/5.0 (Windows NT 6.1; WOW64) AppleWebKit/537.36 (KHTML, like Gecko) Chrome/38.0.2125.122 YaBrowser/14.12.2125.9740 Safari/537.36".

Definition ucbrowser_ua : string :=
  "Mozilla/5.0 (Linux; U; Android 4.4.4; en-US; XT1022 Build/KXC21.5-40) AppleWebKit/534.30 (KHTML, like Gecko) Version/4.0 UCBrowser/10.7.0.636 U3/0.8.0 Mobile Safari/534.30".

(** A Yandex Browser string whose minor version is above 2^53 - 1. *)
Definition yandex_huge_ua : string :=
  "Mozilla/5.0 (Windows NT 6.1; WOW64) AppleWebKit/537.36 (KHTML, like Gecko) Chrome/38.0.2125.122 YaBrowser/14.99999999999999999999 Safari/537.36".

(** A parser that knows four user-agent strings and reads them as the
    [useragent] package does; on anything else no pattern matches and the
    constructor's defaults apply. *)
Definition ua_regexps (s : string) : string * string * string * string :=
  if String.eqb s chrome_ua then ("Chrome", "56", "0", "2924")
  else if String.eqb s yandex_ua then ("Yandex Browser", "14", "12", "2125")
  else if String.eqb s ucbrowser_ua then ("UC Browser", "10", "7", "0")
  else if String.eqb s yandex_huge_ua
  then ("Yandex Browser", "14", "99999999999999999999", "")
  else ("", "", "", "").

(** [semver.satisfies((Number(major) || 0) + '.' + (Number(minor) || 0)
    + '.' + (Number(patch) || 0), range)] *)
Definition agent_satisfies (ua : Agent) (range : jsval) : outcome bool :=
  semver_satisfies
    (Js.Number_or_0 (major ua), Js.Number_or_0 (minor ua),
     Js.Number_or_0 (patch ua)) range.

Definition UA := UA ua_regexps agent_satisfies.
Definition normalize := normalize ua_regexps agent_satisfies.

End Demo.

(** * Notions used in the statements *)

(** ** What the tables contain *)

#[global] Instance Target_eq_dec : EqDecision Target.
Proof. solve_decision. Defined.

#[global] Instance jsval_eq_dec : EqDecision jsval.
Proof. solve_decision. Defined.

Definition lowercase (s : string) : bool := String.eqb (Js.toLowerCase s) s.

Definition target_ok (a : Target) : bool :=
  nonempty (t_family a) && lowercase (t_family a)
  && bool_decide (t_patch a = None).

(** The leading two components of a key are runs of digits. *)
Definition key_ok (k : string) : bool :=
  forallb (Js.all_chars Js.is_digit) (take 2 (Js.split_dots k)).

Definition rule_ok (r : AliasRule) : bool :=
  match r with
  | Rename t => nonempty t && lowercase t
  | RenameWithVersion a => target_ok a
  | VersionMap es =>
      forallb (fun e => target_ok e.2 && key_ok e.1) es
      && bool_decide (for_in_order es = es)
  | Computed _ => false
  end.

(** ** Canonical records *)

(** A record as full resolution leaves it: a non-empty lowercase family,
    non-empty major and minor, patch ['0']. *)
Definition canonical (ua : Agent) : Prop :=
  nonempty (family ua) = true /\ Js.toLowerCase (family ua) = family ua
  /\ nonempty (major ua) = true /\ nonempty (minor ua) = true
  /\ patch ua = "0".

(** The array stored in the cache for a record (line 294). *)
Definition tuple_of (ua : Agent) : Normalized :=
  mkNormalized "" (family ua) (major ua) (Some (minor ua)) (Some (patch ua)).

(** The record the constructor builds from a match or a cache entry
    (line 208). *)
Definition agent_of_normalized (n : Normalized) : Agent :=
  newAgent (n1 n) (n2 n) (or_0 (n3 n)) (or_0 (n4 n)).

(** Lines 228-293 on a string that is already stripped: parse, zero the
    patch, lowercase the family, resolve the alias (which may raise). *)
Definition resolution (re : string -> string * string * string * string)
    (sv : Agent -> jsval -> outcome bool) (k : string) : outcome Agent :=
  let '(f, ma, mi, pa) := re k in
  let ua := newAgent f ma mi pa in
  resolve_aliases sv
    {| family := Js.toLowerCase (family ua); major := major ua;
       minor := minor ua; patch := "0" |}.

(** Lines 211-293: strip the noise, then resolve. *)
Definition full_resolution (re : string -> string * string * string * string)
    (sv : Agent -> jsval -> outcome bool) (uaString : string)
  : outcome Agent :=
  resolution re sv (strip_noise uaString).

(** ** Caches the module can reach *)

(** The cache is private to the module: it starts empty and changes only
    through the constructor (also when the constructor raises). *)
Inductive reachable (re : string -> string * string * string * string)
    (sv : Agent -> jsval -> outcome bool) : Cache -> Prop :=
| reach_empty : reachable re sv []
| reach_UA c raw :
    reachable re sv c -> reachable re sv (cache_after (UA re sv raw c)).

Definition cache_ok (c : Cache) : Prop :=
  Forall (fun kv => exists ua, canonical ua /\ kv.2 = tuple_of ua) c.

(** What holds of every entry of the cache: the key is no longer than the
    input cap and the value is the resolution of the key. *)
Definition entry_inv (re : string -> string * string * string * string)
    (sv : Agent -> jsval -> outcome bool) (kv : string * Normalized) : Prop :=
  (String.length kv.1 <= MAX_UA_LEN)%nat
  /\ exists ua, resolution re sv kv.1 = Returns ua /\ kv.2 = tuple_of ua.

Definition cache_inv (re : string -> string * string * string * string)
    (sv : Agent -> jsval -> outcome bool) (c : Cache) : Prop :=
  Forall (entry_inv re sv) c /\ NoDup c.*1 /\ (length c <= cache_max)%nat.

(** ** The canonical shape *)

(** One to three dot-separated runs of digits. *)
Definition good_version (v : string) : bool :=
  match Js.split_dots v with
  | [a] => digits_run a
  | [a; b] => digits_run a && digits_run b
  | [a; b; c] => digits_run a && digits_run b && digits_run c
  | _ => false
  end.

Definition digit_or_dot (c : ascii) : bool :=
  Js.is_digit c || Ascii.eqb c ".".

(** What the constructor's defaults add to a canonical string when it is
    printed back: [.0] for each missing component. *)
Definition padding (n : Normalized) : string :=
  match n3 n, n4 n with
  | Some _, Some _ => ""
  | Some _, None => ".0"
  | None, _ => ".0.0"
  end.

(** ** The per-version maps *)

(** The rule in the words of the specification.

    Scan the entries in the order of the table.  The first entry whose
    expression the detected version satisfies is adopted: the record is
    the entry's target family with its target version.  Otherwise every
    entry has a major and a minor distance to the detected version, taken
    from the two leading components of its expression (a missing component
    counts as 0); an entry becomes the candidate when its major distance
    is at most the best major distance so far and its minor distance at
    most the best minor distance so far. *)

(** The target record of an entry: its family, its major, and 0 for a
    minor or a patch the entry does not give. *)
Definition target_record (a : Target) : Agent :=
  {| family := t_family a;
     major := Js.dec (t_major a);
     minor := match t_minor a with Some n => Js.dec n | None => "0" end;
     patch := match t_patch a with Some n => Js.dec n | None => "0" end |}.

Definition expr_component (semverExpr : string) (i : nat) : Z :=
  match Js.split_dots semverExpr !! i with
  | Some s => Z.of_N (Js.Number_or_0 s)
  | None => 0%Z
  end.

Record Best := mkBest {
  best_major : Z;
  best_minor : Z;
  candidate : Agent
}.

Definition nearest_step (detectedMajor detectedMinor : Z) (best : Best)
    (e : string * Target) : Best :=
  let majorDiff := Z.abs (detectedMajor - expr_component e.1 0)%Z in
  let minorDiff := Z.abs (detectedMinor - expr_component e.1 1)%Z in
  if (majorDiff <=? best_major best)%Z then
    if (minorDiff <=? best_minor best)%Z
    then mkBest majorDiff minorDiff (target_record e.2)
    else mkBest majorDiff (best_minor best) (candidate best)
  else best.

(** The detected version satisfies the expression. *)
Definition is_exact (sv : Agent -> jsval -> outcome bool) (detected : Agent)
    (semverExpr : string) : bool :=
  match sv detected (JString semverExpr) with
  | Returns true => true
  | _ => false
  end.

Definition nearest_match (sv : Agent -> jsval -> outcome bool)
    (detected : Agent) (entries : list (string * Target)) : Agent :=
  match find (fun e => is_exact sv detected e.1) entries with
  | Some e => target_record e.2
  | None =>
      candidate
        (foldl (nearest_step (Z.of_N (Js.Number_or_0 (major detected)))
                             (Z.of_N (Js.Number_or_0 (minor detected))))
               (mkBest 9007199254740991%Z 9007199254740991%Z detected) entries)
  end.

(** The loop's [minDiff] and the specification's best-so-far agree. *)
Definition same_best (d : Diff) (b : Best) : Prop :=
  d_major d = Js.Num (Z.to_N (best_major b))
  /\ d_minor d = Js.Num (Z.to_N (best_minor b))
  /\ lastUa d = candidate b
  /\ (0 <= best_major b)%Z /\ (0 <= best_minor b)%Z.

(** The major and minor distance of every entry to the detected record,
    as line 276 and line 277 compute them. *)
Definition entry_distances (this_ua : Agent) (entries : list (string * Target))
  : list (Js.num * Js.num) :=
  (fun e => let d := curr_diff this_ua e.1 (agent_of_target e.2) in
            (d_major d, d_minor d)) <$> entries.

(** Of a list of (major, minor) distances in scan order, the minor
    distances of the entries whose major distance is at most the least
    major distance met before them ([best] at the start). *)
Fixpoint passed_minors (best : N) (ds : list (N * N)) : list N :=
  match ds with
  | [] => []
  | (a, b) :: rest =>
      if a <=? best then b :: passed_minors a rest
      else passed_minors best rest
  end.

Definition least (start : N) (l : list N) : N := foldr N.min start l.

Definition key_small (k : string) : bool :=
  ((expr_component k 0 <=? 9007199254740991)
   && (expr_component k 1 <=? 9007199254740991))%Z.

Definition map_small (r : AliasRule) : bool :=
  match r with
  | VersionMap es =>
      match es with [] => false | _ => forallb (fun e => key_small e.1) es end
  | _ => true
  end.

(** A rename or a fixed-version alias leads to a key of the baseline
    table; the key of every alias is lowercase. *)
Definition alias_lands (e : string * AliasRule) : bool :=
  lowercase e.1
  && match e.2 with
     | Rename t => bool_decide (is_Some (baseLineVersions !! t))
     | RenameWithVersion a =>
         bool_decide (is_Some (baseLineVersions !! t_family a))
     | _ => true
     end.

(** ** The noise patterns as languages *)

(** [matches r w]: the word [w] is in the language of [r]. *)
Inductive matches : regex -> string -> Prop :=
| matches_chr p c : p c = true -> matches (Chr p) (String c "")
| matches_cat r1 r2 a b :
    matches r1 a -> matches r2 b -> matches (Cat r1 r2) (a +:+ b)
| matches_alt_l r1 r2 a : matches r1 a -> matches (Alt r1 r2) a
| matches_alt_r r1 r2 a : matches r2 a -> matches (Alt r1 r2) a
| matches_plus_one r a : matches r a -> matches (Plus r) a
| matches_plus_more r a b :
    matches r a -> matches (Plus r) b -> matches (Plus r) (a +:+ b).

Definition contains_slash (s : string) : bool :=
  negb (Js.all_chars (fun c => negb (Ascii.eqb c "/")) s).

(** The class [p] holds the slash and nothing else. *)
Definition only_slash (p : ascii -> bool) : bool :=
  forallb (fun n => let c := ascii_of_nat n in
                    implb (p c) (Ascii.eqb c "/")) (seq 0 256).

(** Every word of the pattern has a slash. *)
Fixpoint needs_slash (r : regex) : bool :=
  match r with
  | Chr p => only_slash p
  | Cat r1 r2 => needs_slash r1 || needs_slash r2
  | Alt r1 r2 => needs_slash r1 && needs_slash r2
  | Plus r1 => needs_slash r1
  end.

(** What [semver] does with a range that is no string: its own error is
    caught inside the package and the answer is [false]. *)
Definition rejects_inherited (sv : Agent -> jsval -> outcome bool) : Prop :=
  forall ua name, sv ua (JInherited name) = Returns false.

(** ** Calls that may raise *)

(** [a && b] and [!a] on calls that may raise. *)
Definition and_then (a b : outcome bool) : outcome bool :=
  match a with
  | Returns true => b
  | Returns false => Returns false
  | Throws => Throws
  end.

Definition not_o (a : outcome bool) : outcome bool :=
  match a with
  | Returns b => Returns (negb b)
  | Throws => Throws
  end.

Definition returns {A} (o : outcome A) : bool :=
  match o with
  | Returns _ => true
  | Throws => false
  end.

(** * Properties *)

(** ** Strings *)

Lemma lower_char_idem c : Js.lower_char (Js.lower_char c) = Js.lower_char c.
Proof. destruct c as [[] [] [] [] [] [] [] []]; reflexivity. Qed.

Lemma toLowerCase_idem s : Js.toLowerCase (Js.toLowerCase s) = Js.toLowerCase s.
Proof. induction s as [|c s IH]; simpl; [done|]. by rewrite lower_char_idem, IH. Qed.

Lemma app_cons c (a b : string) : String c a +:+ b = String c (a +:+ b).
Proof. reflexivity. Qed.

Lemma app_empty (b : string) : "" +:+ b = b.
Proof. reflexivity. Qed.

Lemma toLowerCase_app a b :
  Js.toLowerCase (a +:+ b) = Js.toLowerCase a +:+ Js.toLowerCase b.
Proof.
  induction a as [|c a IH]; [done|].
  rewrite app_cons; simpl. by rewrite app_cons, IH.
Qed.

Lemma toLowerCase_nonempty s : nonempty (Js.toLowerCase s) = nonempty s.
Proof. by destruct s. Qed.

Lemma app_assoc_s (a b c : string) : (a +:+ b) +:+ c = a +:+ (b +:+ c).
Proof. induction a as [|x a IH]; [done|]. by rewrite !app_cons, IH. Qed.

Lemma length_substr0 n s :
  String.length (Js.substr0 n s) = (n `min` String.length s)%nat.
Proof.
  revert s; induction n as [|n IH]; intros [|c s]; simpl; try done.
  by rewrite IH.
Qed.

Lemma substr0_all n s : (String.length s <= n)%nat -> Js.substr0 n s = s.
Proof.
  revert s; induction n as [|n IH]; intros [|c s]; simpl; try done; [lia|].
  intros H. rewrite IH; [done|lia].
Qed.

Lemma or_else_nonempty x d : nonempty d = true -> nonempty (or_else x d) = true.
Proof. by destruct x. Qed.

Lemma or_else_id x d : nonempty x = true -> or_else x d = x.
Proof. by destruct x. Qed.

(** ** What the tables contain *)

(** Every alias target is a non-empty lowercase name without a patch slot,
    no alias is a function, and the keys of every per-version map start
    with numbers and are iterated in the order they are written. *)
Lemma aliases_table_ok : forallb (fun e => rule_ok e.2) aliases_table = true.
Proof. vm_compute. reflexivity. Qed.

Lemma aliases_lookup_ok f r : aliases !! f = Some r -> rule_ok r = true.
Proof.
  intros H. apply elem_of_list_to_map_2 in H.
  pose proof aliases_table_ok as Hall.
  rewrite forallb_forall in Hall.
  apply (Hall (f, r)). by apply list_elem_of_In.
Qed.

(** ** Canonical records *)

Lemma agent_of_tuple ua :
  canonical ua -> agent_of_normalized (tuple_of ua) = ua.
Proof.
  destruct ua as [f ma mi pa]. intros (Hf & _ & Hma & Hmi & Hpa); simpl in *.
  unfold agent_of_normalized, newAgent; simpl.
  rewrite (or_else_id mi), (or_else_id pa), !or_else_id by (by subst).
  done.
Qed.

Lemma lowercase_spec s : lowercase s = true <-> Js.toLowerCase s = s.
Proof. unfold lowercase. apply String.eqb_eq. Qed.

Lemma agent_of_target_canonical a :
  target_ok a = true -> canonical (agent_of_target a).
Proof.
  unfold target_ok. rewrite !andb_true_iff, bool_decide_eq_true, lowercase_spec.
  intros [[Hne Hlow] Hp]. destruct a as [f ma mi pa]; simpl in *; subst pa.
  unfold canonical, agent_of_target, newAgent; simpl.
  rewrite (or_else_id f) by done.
  repeat split; auto using or_else_nonempty.
Qed.

Section Classification.

Variable re : string -> string * string * string * string.
Variable sv : Agent -> jsval -> outcome bool.

Lemma track_lastUa d cur :
  lastUa (track d cur) = lastUa d \/ lastUa (track d cur) = lastUa cur.
Proof. unfold track. repeat case_match; simpl; auto. Qed.

(** A scan that ends, ends on the record it started with or on the target
    of one of the entries. *)
Lemma scan_lastUa this es d d' :
  scan sv this es d = Returns d' ->
  lastUa d' = lastUa d
  \/ exists k a, (k, a) ∈ es /\ lastUa d' = agent_of_target a.
Proof.
  revert d. induction es as [|[k a] es IH]; intros d; simpl.
  { intros [= <-]. by left. }
  destruct (sv this (JString k)) as [[]|]; [| |done].
  - intros [= <-]. right. exists k, a. split; [left|done].
  - intros H. destruct (IH _ H) as [H' | (k' & a' & Hin & H')].
    + rewrite H'. destruct (track_lastUa d (curr_diff this k (agent_of_target a)))
        as [-> | ->]; [by left|].
      right. exists k, a. split; [left|done].
    + right. exists k', a'. split; [by right|done].
Qed.

Lemma resolve_aliases_canonical ua ua' :
  canonical ua -> resolve_aliases sv ua = Returns ua' -> canonical ua'.
Proof.
  intros Hua. unfold resolve_aliases.
  destruct (aliases !! family ua) as [r|] eqn:Hr; [|by intros [= <-]].
  apply aliases_lookup_ok in Hr.
  destruct r as [t | a | es | f]; simpl in Hr.
  - intros [= <-].
    apply andb_true_iff in Hr as [Hne Hlow]. apply lowercase_spec in Hlow.
    destruct Hua as (_ & _ & ? & ? & ?). by repeat split.
  - intros [= <-]. by apply agent_of_target_canonical.
  - apply andb_true_iff in Hr as [Hall Hord].
    apply bool_decide_eq_true in Hord.
    unfold resolve_version_map. rewrite Hord.
    match goal with |- context [scan _ _ _ ?d] =>
      destruct (scan sv ua es d) as [d'|] eqn:Hscan end; [|done].
    intros [= <-].
    destruct (scan_lastUa _ _ _ _ Hscan) as [-> | (k & a & Hin & ->)];
      [done|].
    apply agent_of_target_canonical.
    rewrite forallb_forall in Hall.
    eapply proj1, andb_true_iff, (Hall (k, a)). by apply list_elem_of_In.
  - done.
Qed.

Lemma resolution_canonical k ua :
  resolution re sv k = Returns ua -> canonical ua.
Proof.
  unfold resolution. destruct (re k) as [[[f ma] mi] pa].
  apply resolve_aliases_canonical. unfold canonical, newAgent; simpl.
  rewrite toLowerCase_nonempty, toLowerCase_idem.
  repeat split; auto using or_else_nonempty.
Qed.

Lemma full_resolution_canonical s ua :
  full_resolution re sv s = Returns ua -> canonical ua.
Proof. apply resolution_canonical. Qed.

(** The four ways through the constructor. *)
Lemma UA_run raw c :
  let s := Js.substr0 MAX_UA_LEN raw in
  UA re sv raw c =
  match shape_test s with
  | Some n => (Returns (agent_of_normalized n), c, [])
  | None =>
      match assoc s c with
      | Some v =>
          (Returns (agent_of_normalized v), (s, v) :: drop_key s c,
           [EvCacheGet s])
      | None =>
          match full_resolution re sv s with
          | Returns ua =>
              (Returns ua,
               take cache_max ((strip_noise s, tuple_of ua)
                                 :: drop_key (strip_noise s) c),
               [EvCacheGet s; EvParse (strip_noise s);
                EvCacheSet (strip_noise s) (tuple_of ua)])
          | Throws => (Throws, c, [EvCacheGet s; EvParse (strip_noise s)])
          end
      end
  end.
Proof.
  intros s. unfold UA. fold s. unfold mbind, M_bind.
  destruct (shape_test s) as [n|]; [done|].
  unfold cache_get. destruct (assoc s c) as [v|]; [done|].
  unfold useragent_parse, full_resolution, resolution, cache_set, mret, M_ret,
    lift.
  destruct (re (strip_noise s)) as [[[f ma] mi] pa]. cbn [family major minor patch].
  by destruct (resolve_aliases sv _).
Qed.

Lemma assoc_elem k c v : assoc k c = Some v -> (k, v) ∈ c.
Proof.
  induction c as [|[k' v'] c IH]; simpl; [done|].
  case_decide; [intros [= ->]; subst; left | intros; right; auto].
Qed.

Lemma assoc_ok k c v :
  cache_ok c -> assoc k c = Some v -> exists ua, canonical ua /\ v = tuple_of ua.
Proof.
  intros Hc Hv. apply assoc_elem in Hv.
  unfold cache_ok in Hc. rewrite Forall_forall in Hc. apply (Hc _ Hv).
Qed.

Lemma drop_key_ok k c : cache_ok c -> cache_ok (drop_key k c).
Proof.
  unfold cache_ok, drop_key. rewrite !Forall_forall.
  intros H kv Hin. apply list_elem_of_filter in Hin as [_ Hin]. auto.
Qed.

Lemma UA_cache_ok raw c : cache_ok c -> cache_ok (cache_after (UA re sv raw c)).
Proof.
  intros Hc. rewrite UA_run. cbv zeta.
  destruct (shape_test _); [done|].
  destruct (assoc _ c) as [v|] eqn:Hv; unfold cache_after; cbn [fst snd].
  - constructor; [by eapply assoc_ok | by apply drop_key_ok].
  - destruct (full_resolution _ _ _) as [ua|] eqn:Hres; cbn [fst snd]; [|done].
    apply Forall_take. constructor; [|by apply drop_key_ok].
    eexists; split; [by eapply full_resolution_canonical | done].
Qed.

Lemma reachable_ok c : reachable re sv c -> cache_ok c.
Proof. induction 1; [constructor | by apply UA_cache_ok]. Qed.

(** Outside the canonical-shape shortcut the constructor's record is
    canonical. *)
Lemma UA_canonical raw c ua :
  reachable re sv c -> shape_test (Js.substr0 MAX_UA_LEN raw) = None ->
  result (UA re sv raw c) = Returns ua -> canonical ua.
Proof.
  intros Hc Hs. apply reachable_ok in Hc. rewrite UA_run. cbv zeta. rewrite Hs.
  destruct (assoc _ c) as [v|] eqn:Hv; unfold result; cbn [fst snd].
  - destruct (assoc_ok _ _ _ Hc Hv) as (ua' & Hua & ->).
    rewrite agent_of_tuple by done. by intros [= <-].
  - destruct (full_resolution _ _ _) as [ua'|] eqn:Hres; cbn [fst snd]; [|done].
    intros [= <-]. by eapply full_resolution_canonical.
Qed.

End Classification.

(** ** The baseline gate *)

Lemma js_get_string (o : gmap string string) k b :
  js_get o k = JString b <-> o !! k = Some b.
Proof.
  unfold js_get. generalize (o !! k) as found. intros [v|].
  - split; by intros [= ->].
  - by case_bool_decide.
Qed.

Lemma js_get_undefined (o : gmap string string) k :
  js_get o k = JUndefined <-> o !! k = None /\ k ∉ Object_prototype.
Proof.
  unfold js_get. generalize (o !! k) as found. intros [v|].
  - split; [done | by intros [? _]].
  - case_bool_decide; split; try done. by intros [_ ?].
Qed.

Lemma js_get_inherited (o : gmap string string) k name :
  js_get o k = JInherited name <->
  o !! k = None /\ k ∈ Object_prototype /\ name = k.
Proof.
  unfold js_get. generalize (o !! k) as found. intros [v|].
  - split; [done | by intros [? _]].
  - case_bool_decide; split; try done.
    + by intros [= <-].
    + by intros (_ & _ & ->).
    + by intros (_ & ? & _).
Qed.

(** [k in o] holds exactly when [o[k]] is not [undefined] (no value of
    the object is). *)
Lemma js_in_get (o : gmap string string) k :
  js_in o k = negb (bool_decide (js_get o k = JUndefined)).
Proof.
  unfold js_in, js_get. generalize (o !! k) as found. intros [v|].
  - rewrite (bool_decide_eq_true_2 (is_Some (Some v))) by eauto.
    by rewrite (bool_decide_eq_false_2 (JString v = JUndefined)).
  - rewrite (bool_decide_eq_false_2 (is_Some None)) by (by intros [? ?]).
    by case_bool_decide.
Qed.


(** [Object.keys(...).indexOf] on line 320 finds the table's own keys. *)
Lemma not_a_key_lookup f :
  not_a_key f = bool_decide (baseLineVersions !! f = None).
Proof.
  unfold not_a_key. apply bool_decide_ext.
  rewrite list_elem_of_fmap. split.
  - intros H. destruct (baseLineVersions !! f) as [b|] eqn:Hb; [|done].
    exfalso. apply H. exists (f, b). split; [done|].
    by apply elem_of_map_to_list.
  - intros H ([f' b] & -> & Hin). apply elem_of_map_to_list in Hin.
    simpl in H. congruence.
Qed.

Section Gate.

Variable sv : Agent -> jsval -> outcome bool.

(** Lines 306-312 as one expression. *)
Lemma satisfies_run ua range :
  satisfies sv ua range =
  and_then (sv ua range)
    (match js_get baseLineVersions (family ua) with
     | JUndefined => Returns false
     | found => sv ua found
     end).
Proof.
  unfold satisfies, satisfies_q, in_baseLineVersions.
  rewrite js_in_get.
  unfold probe, mbind, Q_bind, mret, Q_ret. cbn [fst snd].
  generalize (js_get baseLineVersions (family ua)) as found.
  intros found.
  destruct (sv ua range) as [[]|]; cbn [fst snd and_then]; [|done|done].
  destruct found as [|b|name]; simpl;
      [done | by destruct (sv ua (JString b))
      | by destruct (sv ua (JInherited name))].
Qed.

Lemma isUnknown_run ua :
  isUnknown sv ua =
  match baseLineVersions !! family ua with
  | Some baseline => not_o (sv ua (JString baseline))
  | None => Returns true
  end.
Proof.
  unfold isUnknown, isUnknown_q, meetsBaseline_q, js_get.
  rewrite not_a_key_lookup.
  unfold probe, mbind, Q_bind, mret, Q_ret.
  generalize (baseLineVersions !! family ua) as found. intros [b|].
  - rewrite bool_decide_eq_false_2 by done. cbn [fst snd].
    by destruct (sv ua (JString b)).
  - by rewrite bool_decide_eq_true_2.
Qed.

(** With a [semver] that rejects what is no range, [satisfies(range)]
    returns true exactly when the record satisfies the caller's range, its
    family is a key of the baseline table and the record satisfies the
    baseline range of that family. *)
Lemma satisfies_true_iff ua range :
  rejects_inherited sv ->
  satisfies sv ua range = Returns true <->
    sv ua range = Returns true
    /\ exists baseline, baseLineVersions !! family ua = Some baseline
         /\ sv ua (JString baseline) = Returns true.
Proof.
  intros Hsv. rewrite satisfies_run.
  destruct (js_get baseLineVersions (family ua)) as [|b|name] eqn:Hget.
  - apply js_get_undefined in Hget as [Hnone _].
    destruct (sv ua range) as [[]|]; simpl; split; try done;
      intros [? (b & Hb & _)]; congruence.
  - apply js_get_string in Hget.
    destruct (sv ua range) as [[]|]; simpl; split; try done;
      try (by intros [? _]).
    + intros H. split; [done|]. by exists b.
    + intros [_ (b' & Hb & H)]. congruence.
  - apply js_get_inherited in Hget as (Hnone & _ & _).
    rewrite Hsv.
    destruct (sv ua range) as [[]|]; simpl; split; try done;
      intros [? (b & Hb & _)]; congruence.
Qed.


End Gate.

(** ** The per-version maps *)

Lemma dec_nonempty n : nonempty (Js.dec n) = true.
Proof. unfold Js.dec. by destruct (N.to_uint n). Qed.

(** The [Agent] constructor's defaults do not touch a target of the
    table. *)
Lemma agent_of_target_record a :
  target_ok a = true -> agent_of_target a = target_record a.
Proof.
  unfold target_ok. rewrite !andb_true_iff, bool_decide_eq_true.
  intros [[Hne _] Hp]. destruct a as [f ma mi pa]; simpl in *; subst pa.
  unfold agent_of_target, target_record, newAgent; simpl.
  rewrite (or_else_id f) by done.
  rewrite !or_else_id by apply dec_nonempty.
  by destruct mi.
Qed.

Local Open Scope Z_scope.

Section VersionMaps.

Variable sv : Agent -> jsval -> outcome bool.

Lemma Number_digits s :
  Js.all_chars Js.is_digit s = true ->
  Js.Number s = Js.Num (Js.digits_value 0 s)
  /\ Js.Number_or_0 s = Js.digits_value 0 s.
Proof. unfold Js.Number_or_0, Js.Number. by intros ->. Qed.

Lemma part_number_component k i :
  key_ok k = true -> (i < 2)%nat ->
  exists n, part_number (take 2 (Js.split_dots k) !! i) = Js.Num n
            /\ expr_component k i = Z.of_N n.
Proof.
  unfold key_ok, expr_component. intros Hk Hi.
  destruct (take 2 (Js.split_dots k) !! i) as [s|] eqn:Hs.
  - assert (Hd : Js.all_chars Js.is_digit s = true).
    { rewrite forallb_forall in Hk. apply Hk, list_elem_of_In.
      by eapply list_elem_of_lookup_2. }
    rewrite lookup_take_lt in Hs by done. rewrite Hs. simpl.
    destruct (Number_digits s Hd) as [-> ->]. eauto.
  - rewrite lookup_take_lt in Hs by done. rewrite Hs. simpl.
    by exists 0%N.
Qed.

Lemma abs_diff_Z x y :
  Js.abs_diff (Js.Num x) (Js.Num y)
  = Js.Num (Z.to_N (Z.abs (Z.of_N x - Z.of_N y))).
Proof.
  simpl. f_equal. destruct (N.ltb_spec x y); lia.
Qed.

Lemma track_nearest_step this k a d b :
  Js.all_chars Js.is_digit (major this) = true ->
  Js.all_chars Js.is_digit (minor this) = true ->
  key_ok k = true -> target_ok a = true -> same_best d b ->
  same_best (track d (curr_diff this k (agent_of_target a)))
    (nearest_step (Z.of_N (Js.Number_or_0 (major this)))
                  (Z.of_N (Js.Number_or_0 (minor this))) b (k, a)).
Proof.
  intros Hma Hmi Hk Ha (HdM & Hdm & Hl & HM & Hm).
  destruct (Number_digits _ Hma) as [HnM ->].
  destruct (Number_digits _ Hmi) as [Hnm ->].
  destruct (part_number_component k 0 Hk) as (eM & HeM & HcM); [lia|].
  destruct (part_number_component k 1 Hk) as (em & Hem & Hcm); [lia|].
  rewrite (agent_of_target_record a Ha).
  unfold track, curr_diff, nearest_step; cbn [d_major d_minor lastUa fst snd].
  cbv zeta. rewrite HnM, Hnm, HeM, Hem, HcM, Hcm, HdM, Hdm, !abs_diff_Z.
  set (x := Z.abs (Z.of_N (Js.digits_value 0 (major this)) - Z.of_N eM)).
  set (y := Z.abs (Z.of_N (Js.digits_value 0 (minor this)) - Z.of_N em)).
  assert (0 <= x) by apply Z.abs_nonneg.
  assert (0 <= y) by apply Z.abs_nonneg.
  unfold Js.num_le.
  destruct (Z.leb_spec x (best_major b)),
    (N.leb_spec (Z.to_N x) (Z.to_N (best_major b))); try lia;
    [|by repeat split].
  destruct (Z.leb_spec y (best_minor b)),
    (N.leb_spec (Z.to_N y) (Z.to_N (best_minor b))); try lia;
    by repeat split.
Qed.

(** The loop with its [break] is: the first exact entry if there is one,
    the fold of the nearest-match step over all entries otherwise. *)
Lemma scan_nearest this es d b :
  Js.all_chars Js.is_digit (major this) = true ->
  Js.all_chars Js.is_digit (minor this) = true ->
  forallb (fun e => target_ok e.2 && key_ok e.1) es = true ->
  forallb (fun e => returns (sv this (JString e.1))) es = true ->
  same_best d b ->
  exists d', scan sv this es d = Returns d' /\
  lastUa d' =
  match find (fun e => is_exact sv this e.1) es with
  | Some e => target_record e.2
  | None =>
      candidate
        (foldl (nearest_step (Z.of_N (Js.Number_or_0 (major this)))
                             (Z.of_N (Js.Number_or_0 (minor this)))) b es)
  end.
Proof.
  intros Hma Hmi. revert d b.
  induction es as [|[k a] es IH]; intros d b Hk Hret Hdb; simpl.
  - exists d. split; [done|]. by destruct Hdb as (_ & _ & ? & _).
  - simpl in Hk, Hret.
    apply andb_true_iff in Hk as [[Ha Hk]%andb_true_iff Hes].
    apply andb_true_iff in Hret as [Hret1 Hret].
    unfold is_exact at 1. cbn [fst snd].
    destruct (sv this (JString k)) as [[]|]; [| |done].
    + eexists. split; [done|]. simpl. by apply agent_of_target_record.
    + apply IH; [done | done |]. by apply track_nearest_step.
Qed.

(** The first exact entry ends the loop: the entries after it are not
    tested. *)
Lemma scan_exact this pre k a post d :
  Forall (fun e => sv this (JString e.1) = Returns false) pre ->
  sv this (JString k) = Returns true ->
  exists d', scan sv this (pre ++ (k, a) :: post) d = Returns d'
             /\ lastUa d' = agent_of_target a.
Proof.
  intros Hpre Hk. revert d.
  induction pre as [|[k' a'] pre IH]; intros d; simpl.
  - rewrite Hk. by eexists.
  - apply Forall_cons in Hpre as [Hk' Hpre]. simpl in Hk'. rewrite Hk'.
    by apply IH.
Qed.

(** C4: for every family whose alias is a per-version map, and a detected
    major and minor that are numbers up to 2^53 - 1 on which no range
    test raises, resolution goes through the entries in the order the
    table declares them; it adopts the target record of the first entry
    whose expression the detected version satisfies and stops; with no
    such entry it adopts the target record of the last entry that the
    nearest-match step made the candidate (major distance at most the
    best so far and, within that, minor distance at most the best so far,
    so ties go to the later entry); a map without entries leaves the
    detected record as it is.  The entries after the first exact one are
    not tested. *)
Theorem version_map_first_exact_else_nearest
    (ua : Agent) (entries : list (string * Target)) :
  aliases !! family ua = Some (VersionMap entries) ->
  Js.all_chars Js.is_digit (major ua) = true ->
  Js.all_chars Js.is_digit (minor ua) = true ->
  (Js.digits_value 0 (major ua) <= Js.MAX_SAFE_INTEGER)%N ->
  (Js.digits_value 0 (minor ua) <= Js.MAX_SAFE_INTEGER)%N ->
  forallb (fun e => returns (sv ua (JString e.1))) entries = true ->
  resolve_aliases sv ua = Returns (nearest_match sv ua entries)
  /\ (forall pre e post,
        entries = pre ++ e :: post ->
        Forall (fun x => sv ua (JString x.1) = Returns false) pre ->
        sv ua (JString e.1) = Returns true ->
        resolve_aliases sv ua = Returns (target_record e.2))
  /\ resolve_version_map sv ua [] = Returns ua
  /\ nearest_match sv ua [] = ua.
Proof.
  intros Hf Hma Hmi _ _ Hret.
  pose proof (aliases_lookup_ok _ _ Hf) as Hok. simpl in Hok.
  apply andb_true_iff in Hok as [Hall Hord].
  apply bool_decide_eq_true in Hord.
  unfold resolve_aliases. rewrite Hf. clear Hf.
  unfold resolve_version_map. rewrite Hord.
  split; [|split; [|split; reflexivity]].
  - unfold nearest_match.
    match goal with |- context [scan sv ua entries ?d] =>
      destruct (scan_nearest ua entries d
                  (mkBest 9007199254740991 9007199254740991 ua))
        as (d' & -> & ->) end; done.
  - intros pre [k a] post -> Hpre Hk. simpl in Hk.
    match goal with |- context [scan sv ua _ ?d] =>
      destruct (scan_exact ua pre k a post d Hpre Hk) as (d' & -> & ->) end.
    f_equal. apply agent_of_target_record.
    rewrite forallb_forall in Hall.
    eapply proj1, andb_true_iff, (Hall (k, a)).
    apply list_elem_of_In, elem_of_app. right. left.
Qed.

End VersionMaps.

Local Close Scope Z_scope.

Lemma num_le_Num x m :
  Js.num_le x (Js.Num m) = true -> exists m', x = Js.Num m' /\ (m' <= m)%N.
Proof.
  destruct x as [m'|]; simpl; [|done].
  intros H. exists m'. split; [done|]. by apply N.leb_le.
Qed.

Lemma track_minor d cur m :
  d_minor d = Js.Num m ->
  exists m', d_minor (track d cur) = Js.Num m' /\ (m' <= m)%N.
Proof.
  intros Hd. unfold track.
  destruct (Js.num_le (d_major cur) (d_major d)); [|by exists m].
  destruct (Js.num_le (d_minor cur) (d_minor d)) eqn:Hle; simpl; [|by exists m].
  rewrite Hd in Hle. by apply num_le_Num.
Qed.

Lemma scan_minor sv this es d d' m :
  d_minor d = Js.Num m -> scan sv this es d = Returns d' ->
  exists m', d_minor d' = Js.Num m' /\ (m' <= m)%N.
Proof.
  revert d m. induction es as [|[k a] es IH]; intros d m Hd; simpl.
  - intros [= <-]. by exists m.
  - destruct (sv this (JString k)) as [[]|]; [| |done].
    + intros [= <-]. by exists m.
    + intros Hscan.
      destruct (track_minor d (curr_diff this k (agent_of_target a)) m Hd)
        as (m1 & H1 & Hle1).
      destruct (IH _ m1 H1 Hscan) as (m2 & H2 & Hle2).
      exists m2. split; [done|]. lia.
Qed.

Lemma least_min a start l : least (N.min a start) l = N.min a (least start l).
Proof.
  unfold least. induction l as [|x l IH]; simpl; [done|].
  rewrite IH. lia.
Qed.

(** One step of the loop on numbers. *)
Lemma track_numbers d cur M m a b :
  d_major d = Js.Num M -> d_minor d = Js.Num m ->
  d_major cur = Js.Num a -> d_minor cur = Js.Num b ->
  d_major (track d cur) = Js.Num (N.min a M)
  /\ d_minor (track d cur) = Js.Num (if a <=? M then N.min b m else m).
Proof.
  intros HM Hm Ha Hb. unfold track. rewrite HM, Hm, Ha, Hb. simpl.
  destruct (N.leb_spec a M).
  - rewrite (N.min_l a M) by done.
    destruct (N.leb_spec b m); simpl; split; try done; f_equal; lia.
  - rewrite HM, Hm. split; f_equal; lia.
Qed.

(** A scan without an exact entry ends, with the least major distance of
    all entries and the least minor distance of the entries that passed
    the major test. *)
Lemma scan_numbers sv this es d M m ds :
  d_major d = Js.Num M -> d_minor d = Js.Num m ->
  entry_distances this es = (fun p => (Js.Num p.1, Js.Num p.2)) <$> ds ->
  Forall (fun e => sv this (JString e.1) = Returns false) es ->
  exists d', scan sv this es d = Returns d'
    /\ d_major d' = Js.Num (least M ds.*1)
    /\ d_minor d' = Js.Num (least m (passed_minors M ds)).
Proof.
  revert d M m ds. induction es as [|[k t] es IH]; intros d M m ds HM Hm Hds Hsv.
  - destruct ds; [|done]. exists d. by repeat split.
  - destruct ds as [|[a b] ds]; [done|].
    injection Hds as Ha Hb Hds. apply Forall_cons in Hsv as [Hk Hsv].
    simpl in Hk. simpl. rewrite Hk.
    destruct (track_numbers d (curr_diff this k (agent_of_target t)) M m a b)
      as [HM' Hm']; try done.
    destruct (IH _ _ _ ds HM' Hm' Hds Hsv) as (d' & Hscan & HdM & Hdm).
    exists d'. split; [done|]. rewrite HdM, Hdm.
    split; f_equal.
    + unfold least at 2. simpl. fold (least M ds.*1).
      by rewrite least_min.
    + destruct (N.leb_spec a M).
      * unfold least at 2. simpl. fold (least m (passed_minors a ds)).
        rewrite (N.min_l a M) by done. by rewrite least_min.
      * by rewrite (N.min_r a M) by lia.
Qed.

(** C9: the scan keeps one minor distance for all entries: it never grows,
    whatever happens to the major distance, neither in one step nor over
    a whole scan, while the recorded major distance is the least one met
    so far.  The recorded minor distance is the least one among the
    entries that passed the major test when they were scanned, not among
    all entries scanned.  An entry that strictly lowers the recorded major
    distance while its own minor distance exceeds the recorded one leaves
    its major distance in the record and is not adopted.  So the adopted
    entry need not be nearest in the major component: Yandex Browser 14.12
    resolves to the target of the entry [15.12] (Chrome 46), at major
    distance 1, although the entry [14.10] is at major distance 0. *)
Theorem minor_distance_is_never_reset :
  (forall d cur m, d_minor d = Js.Num m ->
     exists m', d_minor (track d cur) = Js.Num m' /\ (m' <= m)%N)
  /\ (forall sv this es d d' m,
        d_minor d = Js.Num m -> scan sv this es d = Returns d' ->
        exists m', d_minor d' = Js.Num m' /\ (m' <= m)%N)
  /\ (forall d cur M M',
        d_major d = Js.Num M -> d_major cur = Js.Num M' ->
        d_major (track d cur) = Js.Num (N.min M M'))
  /\ (forall sv this es d M m ds,
        d_major d = Js.Num M -> d_minor d = Js.Num m ->
        entry_distances this es = (fun p => (Js.Num p.1, Js.Num p.2)) <$> ds ->
        Forall (fun e => sv this (JString e.1) = Returns false) es ->
        exists d', scan sv this es d = Returns d'
          /\ d_major d' = Js.Num (least M ds.*1)
          /\ d_minor d' = Js.Num (least m (passed_minors M ds)))
  /\ (forall d cur M m M' m',
        d_major d = Js.Num M -> d_minor d = Js.Num m ->
        d_major cur = Js.Num M' -> d_minor cur = Js.Num m' ->
        (M' < M)%N -> (m < m')%N ->
        track d cur = mkDiff (Js.Num M') (Js.Num m) (lastUa d))
  /\ (let ua := mkAgent "yandex browser" "14" "12" "0" in
      let chrome46 := mkAgent "chrome" "46" "0" "0" in
      let chrome37 := mkAgent "chrome" "37" "0" "0" in
      resolve_aliases Demo.agent_satisfies ua = Returns chrome46
      /\ ("15.12", tgt "chrome" 46) ∈ yandex_browser_map
      /\ agent_of_target (tgt "chrome" 46) = chrome46
      /\ d_major (curr_diff ua "15.12" chrome46) = Js.Num 1
      /\ ("14.10", tgt "chrome" 37) ∈ yandex_browser_map
      /\ agent_of_target (tgt "chrome" 37) = chrome37
      /\ d_major (curr_diff ua "14.10" chrome37) = Js.Num 0).
Proof.
  split; [exact track_minor|]. split; [exact scan_minor|].
  split; [|split; [exact scan_numbers|split]].
  - intros d cur M M' HM HM'. unfold track. rewrite HM, HM'. simpl.
    destruct (N.leb_spec M' M).
    + rewrite N.min_r by done. by destruct (Js.num_le _ _).
    + rewrite N.min_l by lia. done.
  - intros d cur M m M' m' HM Hm HM' Hm' Hlt Hgt.
    unfold track. rewrite HM, Hm, HM', Hm'. simpl.
    destruct (N.leb_spec M' M); [|lia].
    destruct (N.leb_spec m' m); [lia|done].
  - cbv zeta. split; [vm_compute; reflexivity|].
    split; [by apply list_elem_of_In; vm_compute; tauto|].
    split; [vm_compute; reflexivity|].
    split; [vm_compute; reflexivity|].
    split; [by apply list_elem_of_In; vm_compute; tauto|].
    split; vm_compute; reflexivity.
Qed.

(** ** The canonical shape *)

Lemma span_spec p s a b :
  Js.span p s = (a, b) -> s = a +:+ b /\ Js.all_chars p a = true.
Proof.
  revert a b. induction s as [|c s IH]; intros a b; simpl.
  - by intros [= <- <-].
  - destruct (p c) eqn:Hc.
    + destruct (Js.span p s) as [a' b'] eqn:Hs. intros [= <- <-].
      destruct (IH _ _ eq_refl) as [-> Ha]. simpl. by rewrite Hc.
    + by intros [= <- <-].
Qed.

Lemma span_app p a c b :
  Js.all_chars p a = true -> p c = false ->
  Js.span p (a +:+ String c b) = (a, String c b).
Proof.
  intros Ha Hc. induction a as [|x a IH].
  - change ("" +:+ String c b) with (String c b). simpl. by rewrite Hc.
  - simpl in Ha. apply andb_true_iff in Ha as [Hx Ha].
    change (String x a +:+ String c b) with (String x (a +:+ String c b)).
    simpl. by rewrite Hx, IH.
Qed.

Lemma match_normalized_shape s :
  is_Some (match_normalized s) <->
  exists name version,
    s = name +:+ String "/" version /\ nonempty name = true
    /\ Js.all_chars Js.is_word name = true /\ good_version version = true.
Proof.
  unfold match_normalized, good_version. split.
  - destruct (Js.span Js.is_word s) as [name rest] eqn:Hspan.
    apply span_spec in Hspan as [-> Hw].
    destruct rest as [|c version]; [by intros [? ?]|].
    destruct (Ascii.eqb_spec c "/") as [->|]; [|by intros [? ?]].
    destruct (nonempty name) eqn:Hne; [|by intros [? ?]]. simpl.
    intros H. exists name, version. repeat split; try done.
    destruct (Js.split_dots version) as [|a [|b [|d [|? ?]]]];
      try (by destruct H); repeat case_match; try done; by destruct H.
  - intros (name & version & -> & Hne & Hw & Hv).
    rewrite span_app by done. rewrite Hne. simpl.
    destruct (Js.split_dots version) as [|a [|b [|d [|? ?]]]];
      try done; rewrite Hv; eauto.
Qed.

Lemma split_dots_digit_or_dot v :
  forallb (Js.all_chars Js.is_digit) (Js.split_dots v) = true ->
  Js.all_chars digit_or_dot v = true.
Proof.
  induction v as [|c v IH]; simpl; [done|].
  unfold digit_or_dot at 1.
  destruct (Ascii.eqb_spec c ".") as [->|Hc]; simpl.
  - intros H. by apply IH.
  - rewrite orb_false_r.
    destruct (Js.split_dots v) as [|x xs]; simpl in *.
    + rewrite !andb_true_r. intros ->. by apply IH.
    + rewrite <- andb_assoc. intros [-> H]%andb_true_iff. by apply IH.
Qed.

Lemma good_version_digit_or_dot v :
  good_version v = true -> Js.all_chars digit_or_dot v = true.
Proof.
  unfold good_version, digits_run. intros H. apply split_dots_digit_or_dot.
  destruct (Js.split_dots v) as [|a [|b [|d [|? ?]]]]; try done; simpl;
    repeat (apply andb_true_iff in H as [H ?]);
    repeat (match goal with
            | H : (_ && _) = true |- _ => apply andb_true_iff in H as [? ?]
            end);
    repeat (apply andb_true_iff; split); done.
Qed.

Lemma digit_or_dot_lower c : digit_or_dot c = true -> Js.lower_char c = c.
Proof. destruct c as [[] [] [] [] [] [] [] []]; by vm_compute. Qed.

Lemma is_word_lower c : Js.is_word (Js.lower_char c) = Js.is_word c.
Proof. destruct c as [[] [] [] [] [] [] [] []]; reflexivity. Qed.

Lemma toLowerCase_digit_or_dot v :
  Js.all_chars digit_or_dot v = true -> Js.toLowerCase v = v.
Proof.
  induction v as [|c v IH]; simpl; [done|].
  intros [Hc Hv]%andb_true_iff. by rewrite digit_or_dot_lower, IH.
Qed.

Lemma all_word_lower s :
  Js.all_chars Js.is_word (Js.toLowerCase s) = Js.all_chars Js.is_word s.
Proof. induction s as [|c s IH]; simpl; [done|]. by rewrite is_word_lower, IH. Qed.

(** Lowercasing keeps the canonical shape. *)
Lemma match_normalized_lower s :
  is_Some (match_normalized s) -> is_Some (match_normalized (Js.toLowerCase s)).
Proof.
  rewrite !match_normalized_shape.
  intros (name & version & -> & Hne & Hw & Hv).
  exists (Js.toLowerCase name), version.
  rewrite toLowerCase_app. simpl.
  rewrite (toLowerCase_digit_or_dot version)
    by (by apply good_version_digit_or_dot).
  by rewrite toLowerCase_nonempty, all_word_lower.
Qed.

Lemma all_chars_app p a b :
  Js.all_chars p (a +:+ b) = Js.all_chars p a && Js.all_chars p b.
Proof.
  induction a as [|c a IH]; [done|].
  rewrite app_cons; simpl. by rewrite IH, andb_assoc.
Qed.

(** When a string splits at a slash in two ways, and the first way has no
    slash before the split, the second tail is a tail of the first. *)
Lemma slash_split name version fam ver :
  Js.all_chars Js.is_word name = true ->
  name +:+ String "/" version = fam +:+ String "/" ver ->
  exists x, version = x +:+ ver.
Proof.
  revert fam. induction name as [|c name IH]; intros fam Hw.
  - rewrite app_empty. destruct fam as [|c' fam].
    + rewrite app_empty. intros [= ->]. by exists "".
    + rewrite app_cons. intros [= <- ->]. exists (fam +:+ "/").
      by rewrite app_assoc_s.
  - simpl in Hw. apply andb_true_iff in Hw as [Hc Hw].
    rewrite app_cons. destruct fam as [|c' fam].
    + rewrite app_empty. intros [= -> _]. done.
    + rewrite app_cons. intros [= <- H]. by apply (IH fam).
Qed.

(** ** Classification *)

Section Claims.

Variable re : string -> string * string * string * string.
Variable sv : Agent -> jsval -> outcome bool.

Lemma shape_test_None raw :
  match_normalized raw = None -> shape_test (Js.substr0 MAX_UA_LEN raw) = None.
Proof.
  intros H. unfold shape_test.
  destruct (Nat.ltb_spec (String.length (Js.substr0 MAX_UA_LEN raw)) 22)
    as [Hlt|]; [|done].
  rewrite length_substr0 in Hlt. unfold MAX_UA_LEN in *.
  rewrite substr0_all by lia. done.
Qed.

Lemma canonical_toVersion ua :
  canonical ua -> toVersion ua = (major ua +:+ "." +:+ minor ua) +:+ ".0".
Proof.
  destruct ua as [f ma mi pa]. intros (_ & _ & Hma & Hmi & Hpa); simpl in *.
  subst pa. unfold toVersion; simpl.
  destruct ma; [done|]. destruct mi; [done|].
  by rewrite !app_assoc_s.
Qed.

Lemma or_else_or_0 x : or_else (or_0 x) "0" = or_0 x.
Proof. by destruct x as [[|? ?]|]. Qed.

Lemma take_cache_max {A} (x : A) l :
  take cache_max (x :: l) = x :: take (pred cache_max) l.
Proof. reflexivity. Qed.

Lemma assoc_None k c : assoc k c = None <-> forall v, (k, v) ∉ c.
Proof.
  induction c as [|[k' v'] c IH]; simpl.
  - split; [intros _ v Hin; by apply elem_of_nil in Hin | done].
  - case_decide as Hk; subst.
    + split; [done|]. intros H. destruct (H v'). left.
    + rewrite IH. split.
      * intros H v [[= ? ?]|Hin]%elem_of_cons; [done|by apply (H v)].
      * intros H v Hin. apply (H v). by right.
Qed.

Lemma assoc_None_sub k (c c' : Cache) :
  (forall x, x ∈ c' -> x ∈ c) -> assoc k c = None -> assoc k c' = None.
Proof. rewrite !assoc_None. intros Hsub H v Hin. by apply (H v), Hsub. Qed.

Lemma assoc_after_set k k' v c :
  k <> k' -> assoc k c = None ->
  assoc k (take cache_max ((k', v) :: drop_key k' c)) = None.
Proof.
  intros Hk Hc. rewrite take_cache_max. simpl.
  rewrite decide_False by done.
  apply (assoc_None_sub k c); [|done].
  intros x Hx. apply subseteq_take in Hx.
  by apply list_elem_of_filter in Hx as [_ ?].
Qed.

(** The constructor raises exactly when neither shortcut answers and the
    resolution of the stripped string raises. *)
Lemma UA_throws raw c :
  let s := Js.substr0 MAX_UA_LEN raw in
  result (UA re sv raw c) = Throws <->
  shape_test s = None /\ assoc s c = None /\ full_resolution re sv s = Throws.
Proof.
  intros s. rewrite UA_run. fold s.
  destruct (shape_test s) as [n|]; [by split; [|intros [? _]]|].
  destruct (assoc s c) as [v|]; [by split; [|intros (_ & ? & _)]|].
  destruct (full_resolution re sv s); unfold result; cbn [fst snd];
    [by split; [|intros (_ & _ & ?)] | done].
Qed.

(** C5: the shape test and the cache lookup both run on the string as it
    was received (cut to 300 characters); the noise is stripped only when
    both shortcuts missed, and what was stripped goes to the parser and,
    unless the resolution raises, becomes the key of the cache entry. *)
Theorem shortcuts_run_before_the_sanitizer (raw : string) (c : Cache) :
  let s := Js.substr0 MAX_UA_LEN raw in
  match shape_test s with
  | Some n => UA re sv raw c = (Returns (agent_of_normalized n), c, [])
  | None =>
      match assoc s c with
      | Some v =>
          result (UA re sv raw c) = Returns (agent_of_normalized v)
          /\ events (UA re sv raw c) = [EvCacheGet s]
      | None =>
          result (UA re sv raw c) = full_resolution re sv s
          /\ events (UA re sv raw c) =
               [EvCacheGet s; EvParse (strip_noise s)]
               ++ match full_resolution re sv s with
                  | Returns ua => [EvCacheSet (strip_noise s) (tuple_of ua)]
                  | Throws => []
                  end
      end
  end.
Proof.
  intros s. rewrite UA_run. fold s.
  destruct (shape_test s); [done|]. destruct (assoc s c); [done|].
  by destruct (full_resolution re sv s).
Qed.

(** The keys of the cache events: the cache is read under the string as it
    was received (cut to 300 characters) and written under the sanitized
    string; after a miss that does not raise, the entry sits in the cache
    under the sanitized key. *)
Lemma cache_read_by_input_written_by_sanitized (raw : string) (c : Cache) :
  let s := Js.substr0 MAX_UA_LEN raw in
  let r := UA re sv raw c in
  Forall (fun e => match e with
                   | EvCacheGet k => k = s
                   | EvCacheSet k _ => k = strip_noise s
                   | EvParse _ => True
                   end) (events r)
  /\ (shape_test s = None -> exists l, events r = EvCacheGet s :: l)
  /\ (shape_test s = None -> assoc s c = None ->
      forall ua, result r = Returns ua ->
      EvCacheSet (strip_noise s) (tuple_of ua) ∈ events r
      /\ assoc (strip_noise s) (cache_after r) = Some (tuple_of ua)).
Proof.
  intros s r. subst r. rewrite UA_run. fold s.
  destruct (shape_test s) as [n|].
  { split; [constructor|]. by split. }
  destruct (assoc s c) as [v|]; unfold events, cache_after, result;
    cbn [fst snd].
  - split; [by repeat constructor|]. split; [eauto|done].
  - destruct (full_resolution re sv s) as [ua|]; cbn [fst snd].
    + split; [by repeat constructor|]. split; [eauto|].
      intros _ _ ua' [= <-]. split; [do 2 right; left|].
      rewrite take_cache_max. simpl. by rewrite decide_True.
    + split; [by repeat constructor|]. split; [eauto|done].
Qed.

(** X2: classifying a string a second time gives the same outcome; the
    parser runs again exactly when neither shortcut applied the first time
    and either the sanitizer changed the string or the first
    classification raised, so that nothing was stored. *)
Theorem UA_twice (raw : string) (c : Cache) :
  let s := Js.substr0 MAX_UA_LEN raw in
  let r1 := UA re sv raw c in
  let r2 := UA re sv raw (cache_after r1) in
  result r2 = result r1
  /\ ((exists i, EvParse i ∈ events r2) <->
      shape_test s = None /\ assoc s c = None
      /\ (strip_noise s <> s \/ result r1 = Throws)).
Proof.
  intros s r1 r2. subst r1 r2. rewrite !UA_run. fold s.
  destruct (shape_test s) as [n|].
  { split; [done|]. split; [intros [i Hi]; by apply elem_of_nil in Hi|].
    by intros [? _]. }
  destruct (assoc s c) as [v|] eqn:Hv.
  { unfold cache_after, result, events; cbn [fst snd].
    simpl. rewrite decide_True by done. cbn [fst snd]. split; [done|].
    split; [|by intros (_ & ? & _)].
    intros [i [[=]|Hi%elem_of_nil]%elem_of_cons]; done. }
  destruct (full_resolution re sv s) as [ua|] eqn:Hres;
    unfold cache_after, result, events; cbn [fst snd].
  - destruct (decide (strip_noise s = s)) as [Heq|Hne].
    + rewrite take_cache_max, Heq. simpl. rewrite decide_True by done.
      cbn [fst snd].
      rewrite agent_of_tuple by (by eapply full_resolution_canonical).
      split; [done|]. split; [|by intros (_ & _ & [?|?])].
      intros [i [[=]|Hi%elem_of_nil]%elem_of_cons]; done.
    + rewrite assoc_after_set by done. cbn [fst snd].
      split; [done|]. split; [eauto|]. intros _. eexists. right. left.
  - rewrite Hv. cbn [fst snd]. split; [done|].
    split; [eauto|]. intros _. eexists. right. left.
Qed.

(** C3: outside the canonical-shape shortcut the record's patch is ['0']
    and [getVersion()] ends in [.0] (unless the constructor raises, which
    it does only on a miss whose resolution raises); the shortcut keeps
    the patch digits of the input (['0'] when the input has none). *)
Theorem patch_zero_outside_shape_shortcut (raw : string) (c : Cache) :
  reachable re sv c ->
  let s := Js.substr0 MAX_UA_LEN raw in
  (shape_test s = None ->
     (exists ua, result (UA re sv raw c) = Returns ua
        /\ patch ua = "0" /\ exists p, getVersion ua = p +:+ ".0")
     \/ (result (UA re sv raw c) = Throws
         /\ assoc s c = None /\ full_resolution re sv s = Throws))
  /\ (forall n, shape_test s = Some n ->
        exists ua, result (UA re sv raw c) = Returns ua
          /\ patch ua = or_0 (n4 n)).
Proof.
  intros Hc s. split.
  - intros Hs. destruct (result (UA re sv raw c)) as [ua|] eqn:Hres.
    + left. exists ua. split; [done|].
      pose proof (UA_canonical re sv raw c ua Hc Hs Hres) as Hua.
      split; [apply Hua|].
      eexists. unfold getVersion. by apply canonical_toVersion.
    + right. split; [done|]. by apply UA_throws in Hres as (_ & ? & ?).
  - intros n Hn. rewrite UA_run. fold s. rewrite Hn.
    eexists. split; [done|].
    unfold agent_of_normalized; simpl. apply or_else_or_0.
Qed.

Lemma normalize_run raw c :
  normalize re sv raw c =
  match match_normalized raw with
  | Some _ => (Returns (Js.toLowerCase raw), c, [])
  | None =>
      let r := UA re sv raw c in
      (match result r with
       | Returns ua => Returns (getFamily ua +:+ "/" +:+ getVersion ua)
       | Throws => Throws
       end,
       cache_after r, events r)
  end.
Proof.
  unfold normalize. destruct (match_normalized raw); [done|].
  unfold mbind, M_bind, result, cache_after, events.
  destruct (UA re sv raw c) as [[[ua|] c1] l1]; cbn [fst snd]; [|done].
  unfold mret, M_ret. by rewrite app_nil_r.
Qed.

Lemma normalize_shape_result s c :
  is_Some (match_normalized s) ->
  result (normalize re sv s c) = Returns (Js.toLowerCase s).
Proof. rewrite normalize_run. by intros [n ->]. Qed.

(** C8: [normalize] is idempotent on every string whose normal form has
    the canonical shape, and so on every string that has the canonical
    shape itself (where it always returns). *)
Theorem normalize_idempotent_on_canonical_shape (raw : string) (c c' : Cache) :
  reachable re sv c ->
  (is_Some (match_normalized raw) ->
     exists r, result (normalize re sv raw c) = Returns r
       /\ result (normalize re sv r c') = Returns r)
  /\ (forall r, result (normalize re sv raw c) = Returns r ->
        is_Some (match_normalized r) ->
        result (normalize re sv r c') = Returns r).
Proof.
  intros Hc.
  assert (Hshape : forall r, result (normalize re sv raw c) = Returns r ->
        is_Some (match_normalized raw) \/ is_Some (match_normalized r) ->
        result (normalize re sv r c') = Returns r).
  { intros r Hr Hshape.
    destruct (match_normalized raw) as [n|] eqn:Hraw.
    - assert (Hs : is_Some (match_normalized raw)) by (by rewrite Hraw).
      rewrite (normalize_shape_result raw c Hs) in Hr. injection Hr as <-.
      rewrite normalize_shape_result by (by apply match_normalized_lower).
      by rewrite toLowerCase_idem.
    - destruct Hshape as [[? [=]]|Hshape].
      rewrite normalize_shape_result by done. f_equal.
      rewrite normalize_run, Hraw in Hr. cbv zeta in Hr.
      unfold result at 1 in Hr. cbn [fst snd] in Hr.
      destruct (result (UA re sv raw c)) as [ua|] eqn:Hres; [|done].
      injection Hr as <-.
      pose proof (UA_canonical re sv raw c ua Hc (shape_test_None raw Hraw) Hres)
        as Hua.
      change (getFamily ua +:+ "/" +:+ getVersion ua)
        with (family ua +:+ String "/" (toVersion ua)) in *.
      apply match_normalized_shape in Hshape
        as (name & version & Heq & _ & Hw & Hv).
      destruct (slash_split _ _ _ _ Hw (eq_sym Heq)) as [x Hx].
      apply good_version_digit_or_dot in Hv. rewrite Hx, all_chars_app in Hv.
      apply andb_true_iff in Hv as [_ Hver].
      rewrite toLowerCase_app. simpl.
      rewrite (toLowerCase_digit_or_dot _ Hver).
      destruct Hua as (_ & -> & _). done. }
  split.
  - intros Hs. exists (Js.toLowerCase raw).
    pose proof (normalize_shape_result raw c Hs) as Hr.
    split; [done|]. apply Hshape; [done | by left].
  - intros r Hr Hs. apply Hshape; [done | by right].
Qed.

End Claims.

(** X14: outside the canonical-shape shortcut the family is lowercase. *)
Theorem UA_family_lowercase re sv raw c ua :
  reachable re sv c -> shape_test (Js.substr0 MAX_UA_LEN raw) = None ->
  result (UA re sv raw c) = Returns ua ->
  Js.toLowerCase (getFamily ua) = getFamily ua.
Proof.
  intros Hc Hs Hres.
  by destruct (UA_canonical re sv raw c ua Hc Hs Hres) as (_ & ? & _).
Qed.

(** ** The module at concrete inputs *)

(** The sanitizer on the tokens it is written for. *)
Example strip_crios :
  strip_noise "Mozilla/5.0 (iPhone; CPU iPhone OS 10_3 like Mac OS X) AppleWebKit/602.1.50 (KHTML, like Gecko) CriOS/56.0.2924.75 Mobile/14E5239e Safari/602.1"
  = "Mozilla/5.0 (iPhone; CPU iPhone OS 10_3 like Mac OS X) AppleWebKit/602.1.50 (KHTML, like Gecko)  Mobile/14E5239e Safari/602.1".
Proof. vm_compute. reflexivity. Qed.

Example strip_vivaldi_and_facebook :
  strip_noise "Mozilla/5.0 Chrome/60.0.3112.113 Safari/537.36 Vivaldi/1.92.917.43 [FBAN/FBIOS;FBAV/91.0.0.41.73]"
  = "Mozilla/5.0 Chrome/60.0.3112.113 Safari/537.36".
Proof. vm_compute. reflexivity. Qed.

Example strip_needs_a_final_digit :
  strip_noise "Mozilla/5.0 Electron/1. x" = "Mozilla/5.0 Electron/1. x".
Proof. vm_compute. reflexivity. Qed.

(** [for ... in] visits index-like keys first; in the maps of the table
    that is the order of declaration. *)
Example for_in_reorders :
  for_in_order [("9.9.*", tgt "ie" 10); ("10", tgt "uc browser" 0)]
  = [("10", tgt "uc browser" 0); ("9.9.*", tgt "ie" 10)]
  /\ for_in_order uc_browser_map = uc_browser_map.
Proof. vm_compute. done. Qed.

(** The examples of the specification. *)
Example edge_is_ie :
  resolve_aliases Demo.agent_satisfies (mkAgent "edge" "17" "17134" "0")
  = Returns (mkAgent "ie" "17" "17134" "0").
Proof. vm_compute. reflexivity. Qed.

Example opera_30_is_chrome_43 :
  resolve_aliases Demo.agent_satisfies (mkAgent "opera" "30" "0" "0")
  = Returns (mkAgent "chrome" "43" "0" "0").
Proof. vm_compute. reflexivity. Qed.

(** No entry of the Yandex map is exact for 14.12; the nearest-match scan
    ends on the entry [15.12]. *)
Example yandex_14_12_is_chrome_46 :
  let ua := mkAgent "yandex browser" "14" "12" "0" in
  resolve_aliases Demo.agent_satisfies ua
  = Returns (mkAgent "chrome" "46" "0" "0")
  /\ find (fun e => is_exact Demo.agent_satisfies ua e.1) yandex_browser_map
     = None.
Proof. vm_compute. done. Qed.

(** Of two entries at the same distances the later one is adopted; an
    entry at a larger major distance is passed over. *)
Example later_entry_wins_a_tie :
  let ua := mkAgent "x" "15" "9" "0" in
  resolve_version_map Demo.agent_satisfies ua
    [("16.1", tgt "a" 1); ("15.1", tgt "b" 2); ("15.17", tgt "c" 3);
     ("17.9", tgt "d" 4)]
  = Returns (mkAgent "c" "3" "0" "0").
Proof. vm_compute. reflexivity. Qed.

Example ie_6_below_baseline :
  meetsBaseline Demo.agent_satisfies (mkAgent "ie" "6" "0" "0")
  = Returns false
  /\ meetsBaseline Demo.agent_satisfies (mkAgent "ie" "7" "0" "0")
     = Returns true.
Proof. vm_compute. done. Qed.

Example unparseable_is_unknown :
  let ua := mkAgent "other" "0" "0" "0" in
  result (Demo.UA "???" []) = Returns ua
  /\ isUnknown Demo.agent_satisfies ua = Returns true
  /\ satisfies Demo.agent_satisfies ua (JString "*") = Returns false.
Proof. vm_compute. done. Qed.

(** An inherited name as family: [in] holds on line 309 and the range test
    of line 310 runs with what the name yields. *)
Example constructor_is_in_the_table :
  let ua := mkAgent "constructor" "1" "0" "0" in
  result (Demo.UA "constructor/1" []) = Returns ua
  /\ satisfies_q Demo.agent_satisfies ua (JString "*")
     = (Returns false,
        [Requested (JString "*"); Baseline (JInherited "constructor")])
  /\ isUnknown_q Demo.agent_satisfies ua = (Returns true, [])
  /\ getBaseline ua = JInherited "constructor".
Proof. vm_compute. done. Qed.

(** A minor version above 2^53 - 1: the range test of line 266 raises,
    nothing is stored. *)
Example huge_minor_raises :
  Demo.UA Demo.yandex_huge_ua []
  = (Throws, [],
     [EvCacheGet Demo.yandex_huge_ua; EvParse Demo.yandex_huge_ua]).
Proof. vm_compute. reflexivity. Qed.

(** The same string again: nothing was stored, the parser runs again and
    the range test raises again, although the sanitizer leaves the string
    as it is. *)
Example huge_minor_parses_again :
  let r1 := Demo.UA Demo.yandex_huge_ua [] in
  let r2 := Demo.UA Demo.yandex_huge_ua (cache_after r1) in
  strip_noise Demo.yandex_huge_ua = Demo.yandex_huge_ua
  /\ result r1 = Throws
  /\ r2 = (Throws, [],
           [EvCacheGet Demo.yandex_huge_ua; EvParse Demo.yandex_huge_ua]).
Proof. vm_compute. done. Qed.

Lemma Demo_rejects_inherited : rejects_inherited Demo.agent_satisfies.
Proof. intros ua name. reflexivity. Qed.

(** C1: a user-agent string with an Electron token, classified twice from
    an empty cache.  The two records agree, but the second classification
    misses the cache (the entry sits under the sanitized string, the lookup
    asks for the string as received) and calls the parser again. *)
Theorem second_classification_parses_again :
  let r1 := Demo.UA Demo.electron_ua [] in
  let r2 := Demo.UA Demo.electron_ua (cache_after r1) in
  let chrome56 := mkAgent "chrome" "56" "0" "0" in
  result r1 = Returns chrome56
  /\ result r2 = Returns chrome56
  /\ strip_noise Demo.electron_ua = Demo.chrome_ua
  /\ cache_after r1 = [(Demo.chrome_ua, tuple_of chrome56)]
  /\ events r2 =
       [EvCacheGet Demo.electron_ua; EvParse Demo.chrome_ua;
        EvCacheSet Demo.chrome_ua (tuple_of chrome56)].
Proof. vm_compute. done. Qed.

(** C2: for a user-agent string with an Electron token the cache is asked
    for the string as received and written under its sanitized form, which
    is another string; the entry just written is not found under the
    string that was asked for. *)
Theorem lookup_key_is_not_sanitized :
  let r := Demo.UA Demo.electron_ua [] in
  let chrome56 := mkAgent "chrome" "56" "0" "0" in
  events r =
    [EvCacheGet Demo.electron_ua; EvParse Demo.chrome_ua;
     EvCacheSet Demo.chrome_ua (tuple_of chrome56)]
  /\ strip_noise (Js.substr0 MAX_UA_LEN Demo.electron_ua) = Demo.chrome_ua
  /\ String.eqb Demo.electron_ua Demo.chrome_ua = false
  /\ assoc Demo.electron_ua (cache_after r) = None
  /\ assoc Demo.chrome_ua (cache_after r) = Some (tuple_of chrome56).
Proof. vm_compute. done. Qed.

(** C3: on the canonical-shape shortcut the patch of the input stays. *)
Lemma shape_shortcut_keeps_patch :
  let ua := mkAgent "chrome" "1" "2" "3" in
  result (Demo.UA "chrome/1.2.3" []) = Returns ua
  /\ patch ua = "3"
  /\ getVersion ua = "1.2.3".
Proof. vm_compute. done. Qed.

(** C3 at a user-agent string with an Electron token. *)
Lemma patch_zero_witness :
  exists ua, result (Demo.UA Demo.electron_ua []) = Returns ua
    /\ patch ua = "0" /\ exists p, getVersion ua = p +:+ ".0".
Proof.
  destruct (proj1 (patch_zero_outside_shape_shortcut Demo.ua_regexps
                     Demo.agent_satisfies Demo.electron_ua []
                     (reach_empty _ _)))
    as [H | [H _]].
  - vm_compute. reflexivity.
  - exact H.
  - vm_compute in H. discriminate H.
Defined.

(** C4 at Yandex Browser 14.12, which no entry of the map matches. *)
Lemma version_map_witness :
  let ua := mkAgent "yandex browser" "14" "12" "0" in
  nearest_match Demo.agent_satisfies ua yandex_browser_map
  = mkAgent "chrome" "46" "0" "0"
  /\ resolve_aliases Demo.agent_satisfies ua
     = Returns (nearest_match Demo.agent_satisfies ua yandex_browser_map).
Proof.
  split; [vm_compute; reflexivity|].
  refine (proj1 (version_map_first_exact_else_nearest Demo.agent_satisfies
                   (mkAgent "yandex browser" "14" "12" "0")
                   yandex_browser_map _ _ _ _ _ _));
    vm_compute; first [reflexivity | discriminate].
Defined.

(** C5: the string [chrome/30 Electron/1.6.2] has the canonical shape once
    the noise is stripped, yet the cache is asked for it as received and
    the parser is called on [chrome/30]. *)
Lemma sanitized_shape_is_not_recognised :
  let raw := "chrome/30 Electron/1.6.2" in
  strip_noise (Js.substr0 MAX_UA_LEN raw) = "chrome/30"
  /\ shape_test "chrome/30"
     = Some (mkNormalized "chrome/30" "chrome" "30" None None)
  /\ shape_test (Js.substr0 MAX_UA_LEN raw) = None
  /\ take 2 (events (Demo.UA raw [])) = [EvCacheGet raw; EvParse "chrome/30"].
Proof. vm_compute. done. Qed.

(** C6: a family that is no key of the baseline table, with a major
    version above 2^53 - 1: the range test of line 308 raises, so
    [satisfies("*")] does not return [false]; with a small version it
    does. *)
Theorem satisfies_star_raises_on_huge_version :
  let ua := mkAgent "fo" "999999999999999999" "0" "0" in
  result (Demo.UA "fo/999999999999999999" []) = Returns ua
  /\ baseLineVersions !! family ua = None
  /\ satisfies_q Demo.agent_satisfies ua (JString "*")
     = (Throws, [Requested (JString "*")])
  /\ satisfies Demo.agent_satisfies ua (JString "*") = Throws
  /\ isUnknown Demo.agent_satisfies ua = Returns true
  /\ satisfies Demo.agent_satisfies (mkAgent "fo" "1" "0" "0") (JString "*")
     = Returns false.
Proof. vm_compute. done. Qed.

(** C7: on the canonical-shape shortcut the capitals of the input stay,
    and the family is then no key of the baseline table; [normalize]
    lowercases the same input. *)
Theorem shape_shortcut_keeps_capitals :
  let ua := mkAgent "Chrome" "30" "0" "0" in
  result (Demo.UA "Chrome/30" []) = Returns ua
  /\ getFamily ua = "Chrome"
  /\ isUnknown Demo.agent_satisfies ua = Returns true
  /\ result (Demo.normalize "Chrome/30" []) = Returns "chrome/30"
  /\ result (Demo.UA "chrome/30" []) = Returns (mkAgent "chrome" "30" "0" "0")
  /\ isUnknown Demo.agent_satisfies (mkAgent "chrome" "30" "0" "0")
     = Returns false.
Proof. vm_compute. done. Qed.

(** C8: UC Browser 10.7 normalizes to [uc browser/0.0.0], which has no
    canonical shape (the family has a blank) and normalizes to
    [other/0.0.0]. *)
Lemma normalize_not_idempotent_uc_browser :
  let r1 := Demo.normalize Demo.ucbrowser_ua [] in
  let r2 := Demo.normalize "uc browser/0.0.0" (cache_after r1) in
  result r1 = Returns "uc browser/0.0.0"
  /\ result r2 = Returns "other/0.0.0".
Proof. vm_compute. done. Qed.

(** C8 at a user-agent string that normalizes to [chrome/56.0.0]. *)
Lemma normalize_idempotent_witness :
  result (Demo.normalize Demo.electron_ua []) = Returns "chrome/56.0.0"
  /\ result (Demo.normalize "chrome/56.0.0" []) = Returns "chrome/56.0.0".
Proof.
  split; [vm_compute; reflexivity|].
  apply (proj2 (normalize_idempotent_on_canonical_shape Demo.ua_regexps
                  Demo.agent_satisfies Demo.electron_ua [] []
                  (reach_empty _ _)) "chrome/56.0.0").
  - vm_compute. reflexivity.
  - eexists. vm_compute. reflexivity.
Defined.

(** C9: Yandex Browser 18.8.  The scan ends with the recorded minor
    distance 1 (entries [18.9] and [18.7]); the entry [17.8], at minor
    distance 0, was scanned but failed the major test. *)
Lemma recorded_minor_is_not_least_of_all_entries :
  let ua := mkAgent "yandex browser" "18" "8" "0" in
  scan Demo.agent_satisfies ua (for_in_order yandex_browser_map)
    (mkDiff (Js.Num Js.MAX_SAFE_INTEGER) (Js.Num Js.MAX_SAFE_INTEGER) ua)
  = Returns (mkDiff (Js.Num 0) (Js.Num 1) (mkAgent "chrome" "67" "0" "0"))
  /\ resolve_aliases Demo.agent_satisfies ua
     = Returns (mkAgent "chrome" "67" "0" "0")
  /\ existsb (fun e => String.eqb e.1 "17.8") (for_in_order yandex_browser_map)
     = true
  /\ d_minor (curr_diff ua "17.8" (agent_of_target (tgt "chrome" 59)))
     = Js.Num 0
  /\ d_major (curr_diff ua "17.8" (agent_of_target (tgt "chrome" 59)))
     = Js.Num 1.
Proof. vm_compute. done. Qed.

(** * Further properties of the module *)

(** ** The sanitizer *)

Lemma length_app_s (a b : string) :
  String.length (a +:+ b) = (String.length a + String.length b)%nat.
Proof. induction a as [|c a IH]; [done|]. rewrite app_cons; simpl. by rewrite IH. Qed.

(** What the matcher hands to its continuation is what is left after a
    word of the pattern. *)
Lemma rmatch_sound r s k x :
  rmatch r s k = Some x ->
  exists w rest, s = w +:+ rest /\ matches r w /\ k rest = Some x.
Proof.
  revert s k x. induction r as [p | r1 IH1 r2 IH2 | r1 IH1 r2 IH2 | r1 IH1];
    intros s k x; simpl.
  - destruct s as [|c s]; [done|]. destruct (p c) eqn:Hc; [|done].
    intros Hk. exists (String c ""), s. repeat split; [by constructor|done].
  - intros H. apply IH1 in H as (w1 & s1 & -> & Hw1 & H).
    apply IH2 in H as (w2 & s2 & -> & Hw2 & H).
    exists (w1 +:+ w2), s2. rewrite app_assoc_s.
    repeat split; [by constructor|done].
  - destruct (rmatch r1 s k) as [y|] eqn:H1.
    + intros [= ->]. apply IH1 in H1 as (w & rest & -> & Hw & H).
      exists w, rest. repeat split; [by apply matches_alt_l|done].
    + intros H. apply IH2 in H as (w & rest & -> & Hw & H).
      exists w, rest. repeat split; [by apply matches_alt_r|done].
  - generalize (String.length s) at 1. intros fuel. revert s.
    induction fuel as [|fuel IHf]; intros s H.
    + apply IH1 in H as (w & rest & -> & Hw & H).
      exists w, rest. repeat split; [by apply matches_plus_one|done].
    + apply IH1 in H as (w & rest & -> & Hw & H).
      cbv zeta in H.
      destruct (String.length rest <? String.length (w +:+ rest))%nat.
      * match type of H with
        | match ?again with _ => _ end = _ => destruct again as [y|] eqn:Ha
        end.
        -- injection H as ->. apply IHf in Ha as (w2 & s2 & -> & Hw2 & H).
           exists (w +:+ w2), s2. rewrite app_assoc_s.
           repeat split; [by apply matches_plus_more|done].
        -- exists w, rest. repeat split; [by apply matches_plus_one|done].
      * exists w, rest. repeat split; [by apply matches_plus_one|done].
Qed.

(** [replace] without the [g] flag leaves the string alone or cuts one
    word of the pattern out of it. *)
Lemma remove_first_cut r s :
  remove_first r s = s
  \/ exists pre w post,
       s = pre +:+ (w +:+ post) /\ matches r w /\ remove_first r s = pre +:+ post.
Proof.
  induction s as [|c s IH].
  - simpl. destruct (rmatch r "" Some) as [x|] eqn:H; [|by left].
    apply rmatch_sound in H as (w & rest & Hs & Hw & [= <-]).
    right. by exists "", w, rest.
  - simpl. destruct (rmatch r (String c s) Some) as [x|] eqn:H.
    + apply rmatch_sound in H as (w & rest & Hs & Hw & [= <-]).
      right. by exists "", w, rest.
    + destruct IH as [-> | (pre & w & post & -> & Hw & ->)]; [by left|].
      right. by exists (String c pre), w, post.
Qed.

Lemma matches_nonempty r w : matches r w -> (0 < String.length w)%nat.
Proof.
  induction 1; simpl; rewrite ?length_app_s; lia.
Qed.

Lemma remove_first_length r s :
  (String.length (remove_first r s) <= String.length s)%nat
  /\ (String.length (remove_first r s) = String.length s -> remove_first r s = s).
Proof.
  destruct (remove_first_cut r s) as [-> | (pre & w & post & -> & Hw & ->)];
    [done|].
  apply matches_nonempty in Hw. rewrite !length_app_s. lia.
Qed.

Lemma strip_noise_length s :
  (String.length (strip_noise s) <= String.length s)%nat
  /\ (String.length (strip_noise s) = String.length s -> strip_noise s = s).
Proof.
  unfold strip_noise.
  pose proof (remove_first_length re_ios s) as [H1 E1].
  pose proof (remove_first_length re_vivaldi (remove_first re_ios s)) as [H2 E2].
  pose proof (remove_first_length re_facebook
                (remove_first re_vivaldi (remove_first re_ios s))) as [H3 E3].
  pose proof (remove_first_length re_electron
                (remove_first re_facebook
                   (remove_first re_vivaldi (remove_first re_ios s)))) as [H4 E4].
  split; [lia|]. intros H.
  rewrite E4 by lia. rewrite E3 by lia. rewrite E2 by lia. apply E1. lia.
Qed.

(** X5: the sanitizer only removes: its result is never longer than its
    input, and has the length of the input only when nothing was
    removed. *)
Theorem strip_noise_only_removes (s : string) :
  (String.length (strip_noise s) <= String.length s)%nat
  /\ (String.length (strip_noise s) = String.length s -> strip_noise s = s).
Proof. exact (strip_noise_length s). Qed.

Lemma only_slash_spec p c : only_slash p = true -> p c = true -> c = "/"%char.
Proof.
  unfold only_slash. rewrite forallb_forall. intros H Hc.
  specialize (H (nat_of_ascii c)). rewrite ascii_nat_embedding, Hc in H.
  apply Ascii.eqb_eq. apply H, in_seq. pose proof (nat_ascii_bounded c). lia.
Qed.

Lemma contains_slash_app a b :
  contains_slash (a +:+ b) = contains_slash a || contains_slash b.
Proof.
  unfold contains_slash. rewrite all_chars_app. by rewrite negb_andb.
Qed.

Lemma needs_slash_matches r w :
  needs_slash r = true -> matches r w -> contains_slash w = true.
Proof.
  intros Hr Hm. induction Hm; simpl in Hr; rewrite ?contains_slash_app.
  - rewrite (only_slash_spec p c Hr H). reflexivity.
  - apply orb_true_iff in Hr as [Hr|Hr]; [rewrite IHHm1|rewrite IHHm2];
      by rewrite ?orb_true_r.
  - apply andb_true_iff in Hr as [Hr _]. auto.
  - apply andb_true_iff in Hr as [_ Hr]. auto.
  - auto.
  - by rewrite IHHm1.
Qed.

Lemma remove_first_no_slash r s :
  needs_slash r = true -> contains_slash s = false -> remove_first r s = s.
Proof.
  intros Hr Hs.
  destruct (remove_first_cut r s) as [-> | (pre & w & post & -> & Hw & _)];
    [done|].
  rewrite !contains_slash_app, (needs_slash_matches r w Hr Hw) in Hs.
  by rewrite orb_true_r in Hs.
Qed.

(** X6: every noise token has a slash, so the sanitizer leaves a string
    without a slash as it is. *)
Theorem strip_noise_needs_a_slash (s : string) :
  contains_slash s = false -> strip_noise s = s.
Proof.
  intros Hs. unfold strip_noise.
  rewrite (remove_first_no_slash re_ios s) by (by vm_compute || done).
  rewrite (remove_first_no_slash re_vivaldi s) by (by vm_compute || done).
  rewrite (remove_first_no_slash re_facebook s) by (by vm_compute || done).
  by apply remove_first_no_slash; [vm_compute|].
Qed.

Lemma strip_noise_needs_a_slash_witness :
  strip_noise "Mozilla (compatible; no tokens here)"
  = "Mozilla (compatible; no tokens here)".
Proof. apply strip_noise_needs_a_slash. vm_compute. reflexivity. Defined.

(** ** The cache *)

Section CacheInvariant.

Variable re : string -> string * string * string * string.
Variable sv : Agent -> jsval -> outcome bool.

Lemma substr0_idem n s : Js.substr0 n (Js.substr0 n s) = Js.substr0 n s.
Proof. apply substr0_all. rewrite length_substr0. lia. Qed.

Lemma drop_key_keys k (c : Cache) : k ∉ (drop_key k c).*1.
Proof.
  intros ([k' v] & -> & Hin)%list_elem_of_fmap.
  by apply list_elem_of_filter in Hin as [Hne _].
Qed.

Lemma drop_key_NoDup k (c : Cache) : NoDup c.*1 -> NoDup (drop_key k c).*1.
Proof.
  intros H. eapply sublist_NoDup; [exact H|].
  apply fmap_sublist, sublist_filter.
Qed.

Lemma drop_key_shorter k (c : Cache) v :
  assoc k c = Some v -> (length (drop_key k c) < length c)%nat.
Proof.
  intros H. apply assoc_elem in H.
  apply (length_filter_lt _ _ (k, v)); [done|]. simpl. by intros ?.
Qed.

Lemma entry_inv_elem (c : Cache) k v :
  Forall (entry_inv re sv) c -> (k, v) ∈ c -> entry_inv re sv (k, v).
Proof. rewrite Forall_forall. auto. Qed.

Lemma UA_cache_inv raw c :
  cache_inv re sv c -> cache_inv re sv (cache_after (UA re sv raw c)).
Proof.
  intros (Hall & Hnd & Hlen). rewrite UA_run. cbv zeta.
  set (s := Js.substr0 MAX_UA_LEN raw).
  destruct (shape_test s); [done|].
  assert (Hfilter : forall k, Forall (entry_inv re sv) (drop_key k c)).
  { intros k. rewrite Forall_forall in Hall |- *. intros kv Hin.
    apply list_elem_of_filter in Hin as [_ Hin]. auto. }
  destruct (assoc s c) as [v|] eqn:Hv; unfold cache_after; cbn [fst snd].
  - repeat split.
    + constructor; [|done]. apply (entry_inv_elem c); [done|].
      by apply assoc_elem.
    + rewrite fmap_cons. constructor;
        [apply drop_key_keys | by apply drop_key_NoDup].
    + pose proof (drop_key_shorter s c v Hv). simpl. lia.
  - destruct (full_resolution re sv s) as [ua|] eqn:Hres; cbn [fst snd];
      [|done].
    repeat split.
    + apply Forall_take. constructor; [|done]. split; simpl.
      * pose proof (strip_noise_length s) as [Hle _].
        unfold s in Hle at 2. rewrite length_substr0 in Hle. lia.
      * by exists ua.
    + rewrite fmap_take. eapply sublist_NoDup; [|apply sublist_take].
      rewrite fmap_cons. constructor;
        [apply drop_key_keys | by apply drop_key_NoDup].
    + rewrite length_take. lia.
Qed.

Lemma reachable_inv c : reachable re sv c -> cache_inv re sv c.
Proof.
  induction 1 as [|c raw _ IH]; [|by apply UA_cache_inv].
  repeat split; [constructor | constructor | simpl; lia].
Qed.

(** X4: the cache stays within its bounds: never more than 5000 entries,
    no key twice, no key longer than the 300 characters an input is cut
    to. *)
Theorem reachable_cache_is_bounded (c : Cache) :
  reachable re sv c ->
  (length c <= cache_max)%nat /\ NoDup c.*1
  /\ forall k v, (k, v) ∈ c -> (String.length k <= MAX_UA_LEN)%nat.
Proof.
  intros (Hall & Hnd & Hlen)%reachable_inv. repeat split; [done|done|].
  intros k v Hin. by destruct (entry_inv_elem c k v Hall Hin).
Qed.

Lemma lookup_is_resolution (c : Cache) k v :
  reachable re sv c -> assoc k c = Some v ->
  exists ua, resolution re sv k = Returns ua
    /\ v = tuple_of ua /\ agent_of_normalized v = ua /\ canonical ua.
Proof.
  intros (Hall & _)%reachable_inv Hv%assoc_elem.
  destruct (entry_inv_elem c k v Hall Hv) as [_ (ua & Hk & Htuple)].
  simpl in Hk, Htuple. subst v. exists ua.
  pose proof (resolution_canonical re sv k ua Hk) as Hua.
  split; [done|]. split; [done|]. split; [by apply agent_of_tuple | done].
Qed.

(** X3: every entry of the cache holds, under its key, the record that
    full resolution makes of the key as it stands (a resolution that
    returned), and that record is canonical; so a lookup that hits
    returns what parsing the key would return. *)
Theorem reachable_cache_holds_resolutions (c : Cache) (k : string)
    (v : Normalized) :
  reachable re sv c -> assoc k c = Some v ->
  exists ua, resolution re sv k = Returns ua
    /\ v = tuple_of ua
    /\ agent_of_normalized v = ua
    /\ canonical ua.
Proof. apply lookup_is_resolution. Qed.

(** X7: on an input that the sanitizer leaves as it is, the outcome does
    not depend on what the cache holds: it is the outcome an empty cache
    gives. *)
Theorem classification_of_clean_input_ignores_cache (raw : string) (c : Cache) :
  reachable re sv c ->
  strip_noise (Js.substr0 MAX_UA_LEN raw) = Js.substr0 MAX_UA_LEN raw ->
  result (UA re sv raw c) = result (UA re sv raw []).
Proof.
  intros Hc Hclean. rewrite !UA_run. cbv zeta.
  set (s := Js.substr0 MAX_UA_LEN raw) in *.
  destruct (shape_test s); [done|]. simpl assoc.
  destruct (assoc s c) as [v|] eqn:Hv; unfold result; cbn [fst snd].
  - destruct (lookup_is_resolution c s v Hc Hv) as (ua & Hres & _ & -> & _).
    unfold full_resolution. rewrite Hclean, Hres. done.
  - by destruct (full_resolution re sv s).
Qed.

Lemma substr0_app n (a b : string) :
  (n <= String.length a)%nat -> Js.substr0 n (a +:+ b) = Js.substr0 n a.
Proof.
  revert a. induction n as [|n IH]; intros a H; [done|].
  destruct a as [|x a]; simpl in H; [lia|].
  rewrite app_cons. simpl. rewrite IH; [done|lia].
Qed.

(** X1: only the first 300 characters of the input count: the
    constructor does to a string what it does to its first 300 characters,
    so whatever follows them changes nothing. *)
Theorem UA_reads_300_characters (raw : string) (c : Cache) :
  UA re sv raw c = UA re sv (Js.substr0 MAX_UA_LEN raw) c
  /\ forall tail, (MAX_UA_LEN <= String.length raw)%nat ->
       UA re sv (raw +:+ tail) c = UA re sv raw c.
Proof.
  split; [unfold UA; by rewrite substr0_idem|].
  intros tail H. unfold UA. by rewrite substr0_app.
Qed.

End CacheInvariant.

(** ** The query methods together *)

(** X8: with a [semver] that rejects what is no range, [satisfies(range)]
    is [requested && !isUnknown()]: it holds exactly when the record
    satisfies the requested range and the client is not unknown, and it
    raises exactly when one of the two range tests does. *)
Theorem satisfies_is_requested_and_known
    (sv : Agent -> jsval -> outcome bool) (ua : Agent) (range : jsval) :
  rejects_inherited sv ->
  satisfies sv ua range = and_then (sv ua range) (not_o (isUnknown sv ua)).
Proof.
  intros Hsv. rewrite satisfies_run, isUnknown_run.
  destruct (js_get baseLineVersions (family ua)) as [|b|name] eqn:Hget.
  - apply js_get_undefined in Hget as [Hnone _]. revert Hnone.
    generalize (baseLineVersions !! family ua) as found. by intros found ->.
  - apply js_get_string in Hget. revert Hget.
    generalize (baseLineVersions !! family ua) as found. intros found ->.
    destruct (sv ua (JString b)) as [x|]; simpl; [|done].
    by rewrite negb_involutive.
  - apply js_get_inherited in Hget as (Hnone & _ & _). revert Hnone.
    generalize (baseLineVersions !! family ua) as found. intros found ->.
    by rewrite Hsv.
Qed.

(** ** The alias table *)

Lemma aliases_lookup_forall (P : string * AliasRule -> bool) f r :
  forallb P aliases_table = true -> aliases !! f = Some r -> P (f, r) = true.
Proof.
  intros Hall H. apply elem_of_list_to_map_2 in H.
  rewrite forallb_forall in Hall. apply Hall. by apply list_elem_of_In.
Qed.

(** X10: the key of every alias is lowercase, so the lookup with the
    lowercased family can reach it; a rename or a fixed-version alias
    always returns, and leads to a family that is a key of the baseline
    table. *)
Theorem renamed_family_has_a_baseline
    (sv : Agent -> jsval -> outcome bool) (ua : Agent) (rule : AliasRule) :
  aliases !! family ua = Some rule ->
  Js.toLowerCase (family ua) = family ua
  /\ ((exists t, rule = Rename t) \/ (exists a, rule = RenameWithVersion a) ->
      exists ua' baseline,
        resolve_aliases sv ua = Returns ua'
        /\ baseLineVersions !! family ua' = Some baseline
        /\ getBaseline ua' = JString baseline).
Proof.
  intros Hf.
  pose proof (aliases_lookup_forall alias_lands _ _ eq_refl Hf) as Hok.
  unfold alias_lands in Hok. cbn [fst snd] in Hok.
  apply andb_true_iff in Hok as [Hlow Hland].
  split; [by apply lowercase_spec|].
  unfold getBaseline, resolve_aliases. rewrite Hf.
  intros [[t ->] | [a ->]]; apply bool_decide_eq_true in Hland as [b Hb].
  - eexists _, b. split; [done|]. cbn [family].
    split; [done | by apply js_get_string].
  - exists (agent_of_target a), b. split; [done|].
    destruct a as [f ma mi pa]; simpl in *.
    unfold agent_of_target, newAgent; cbn [family t_family].
    destruct f; [by vm_compute in Hb|].
    split; [done | by apply js_get_string].
Qed.

Lemma aliases_table_small :
  forallb (fun e => map_small e.2) aliases_table = true.
Proof. vm_compute. reflexivity. Qed.

Lemma first_entry_adopted this k a :
  Js.all_chars Js.is_digit (major this) = true ->
  Js.all_chars Js.is_digit (minor this) = true ->
  (Js.digits_value 0 (major this) <= Js.MAX_SAFE_INTEGER)%N ->
  (Js.digits_value 0 (minor this) <= Js.MAX_SAFE_INTEGER)%N ->
  key_ok k = true -> key_small k = true ->
  lastUa (track {| d_major := Js.Num Js.MAX_SAFE_INTEGER;
                   d_minor := Js.Num Js.MAX_SAFE_INTEGER;
                   lastUa := this |}
                (curr_diff this k (agent_of_target a)))
  = agent_of_target a.
Proof.
  intros Hma Hmi HM Hm Hk Hs.
  destruct (Number_digits _ Hma) as [HnM _].
  destruct (Number_digits _ Hmi) as [Hnm _].
  destruct (part_number_component k 0 Hk) as (eM & HeM & HcM); [lia|].
  destruct (part_number_component k 1 Hk) as (em & Hem & Hcm); [lia|].
  unfold key_small in Hs. rewrite HcM, Hcm in Hs.
  apply andb_true_iff in Hs as [HsM Hsm].
  apply Z.leb_le in HsM, Hsm.
  unfold track, curr_diff; cbn [d_major d_minor lastUa].
  rewrite HnM, Hnm, HeM, Hem. unfold Js.abs_diff, Js.num_le.
  unfold Js.MAX_SAFE_INTEGER in *.
  rewrite !(proj2 (N.leb_le _ _)); [done| |];
    match goal with |- context [(?x <? ?y)%N] => destruct (N.ltb_spec x y) end;
    lia.
Qed.

(** A scan raises only when the range test of one of its entries does. *)
Lemma scan_throws sv this es d :
  scan sv this es d = Throws ->
  exists k a, (k, a) ∈ es /\ sv this (JString k) = Throws.
Proof.
  revert d. induction es as [|[k a] es IH]; intros d; simpl; [done|].
  destruct (sv this (JString k)) as [[]|] eqn:Hk; [done| |].
  - intros (k' & a' & Hin & H)%IH. exists k', a'. split; [by right|done].
  - intros _. exists k, a. split; [left|done].
Qed.

(** Alias resolution raises only in a per-version map, when the range
    test of one of its entries does. *)
Lemma resolve_aliases_throws sv ua :
  resolve_aliases sv ua = Throws ->
  exists es k a, aliases !! family ua = Some (VersionMap es)
    /\ (k, a) ∈ es /\ sv ua (JString k) = Throws.
Proof.
  unfold resolve_aliases.
  destruct (aliases !! family ua) as [[t | a | es | f]|] eqn:Hf;
    try (intros Hthrows; discriminate Hthrows).
  pose proof (aliases_lookup_ok _ _ Hf) as Hok. simpl in Hok.
  apply andb_true_iff in Hok as [_ Hord]. apply bool_decide_eq_true in Hord.
  unfold resolve_version_map. rewrite Hord.
  match goal with |- context [scan sv ua es ?d] =>
    destruct (scan sv ua es d) as [d'|] eqn:Hscan end;
    [intros Hthrows; discriminate Hthrows|].
  intros _. apply scan_throws in Hscan as (k & a & Hin & Hk).
  exists es, k, a. split; [reflexivity|]. split; assumption.
Qed.

(** X15: the constructor raises exactly when neither shortcut answers and
    the resolution of the stripped string raises; then the cache is left
    as it was, after one lookup and one call of the parser.  Resolution
    raises only for a family with a per-version map, when the range test
    of one of the entries raises. *)
Theorem UA_raises_only_on_a_range_test
    (re : string -> string * string * string * string)
    (sv : Agent -> jsval -> outcome bool) (raw : string) (c : Cache) :
  let s := Js.substr0 MAX_UA_LEN raw in
  (result (UA re sv raw c) = Throws <->
     shape_test s = None /\ assoc s c = None
     /\ full_resolution re sv s = Throws)
  /\ (result (UA re sv raw c) = Throws ->
        UA re sv raw c
        = (Throws, c, [EvCacheGet s; EvParse (strip_noise s)]))
  /\ (forall ua, resolve_aliases sv ua = Throws ->
        exists es k a, aliases !! family ua = Some (VersionMap es)
          /\ (k, a) ∈ es /\ sv ua (JString k) = Throws).
Proof.
  intros s. split; [apply UA_throws|]. split; [|apply resolve_aliases_throws].
  rewrite UA_run. fold s.
  destruct (shape_test s); [done|]. destruct (assoc s c); [done|].
  by destruct (full_resolution re sv s).
Qed.

(** X9: for a family with a per-version map, when the detected major and
    minor are numbers (up to 2^53 - 1), the record becomes the target of
    one of the entries of the map, or a range test of an entry raises and
    so does the resolution. *)
Theorem version_map_lands_on_a_target
    (sv : Agent -> jsval -> outcome bool) (ua : Agent)
    (entries : list (string * Target)) :
  aliases !! family ua = Some (VersionMap entries) ->
  Js.all_chars Js.is_digit (major ua) = true ->
  Js.all_chars Js.is_digit (minor ua) = true ->
  (Js.digits_value 0 (major ua) <= Js.MAX_SAFE_INTEGER)%N ->
  (Js.digits_value 0 (minor ua) <= Js.MAX_SAFE_INTEGER)%N ->
  (exists k a, (k, a) ∈ entries
     /\ resolve_aliases sv ua = Returns (agent_of_target a))
  \/ (resolve_aliases sv ua = Throws
      /\ exists k a, (k, a) ∈ entries /\ sv ua (JString k) = Throws).
Proof.
  intros Hf Hma Hmi HM Hm.
  pose proof (aliases_lookup_forall (fun e => map_small e.2) _ _
                aliases_table_small Hf) as Hsmall.
  pose proof (aliases_lookup_ok _ _ Hf) as Hok.
  unfold resolve_aliases. rewrite Hf.
  cbn [snd map_small rule_ok] in Hsmall, Hok.
  apply andb_true_iff in Hok as [Hall Hord].
  apply bool_decide_eq_true in Hord.
  unfold resolve_version_map. rewrite Hord.
  match goal with |- context [scan sv ua entries ?d] =>
    destruct (scan sv ua entries d) as [d'|] eqn:Hscan end.
  - left. destruct entries as [|[k a] rest]; [done|].
    cbn [forallb fst snd] in Hsmall, Hall.
    apply andb_true_iff in Hsmall as [Hs _].
    apply andb_true_iff in Hall as [[_ Hk]%andb_true_iff _].
    cbn [scan] in Hscan. destruct (sv ua (JString k)) as [[]|]; [| |done].
    + injection Hscan as <-. exists k, a. split; [left|done].
    + destruct (scan_lastUa sv ua rest _ _ Hscan) as [H | (k' & a' & Hin & H)].
      * exists k, a. split; [left|]. rewrite H.
        f_equal. by apply first_entry_adopted.
      * exists k', a'. split; [by right|]. by rewrite H.
  - right. split; [done|]. by eapply scan_throws.
Qed.

Lemma version_map_lands_witness :
  (exists k a, (k, a) ∈ opera_map
    /\ resolve_aliases Demo.agent_satisfies (mkAgent "opera" "12" "16" "0")
       = Returns (agent_of_target a))
  \/ (resolve_aliases Demo.agent_satisfies (mkAgent "opera" "12" "16" "0")
      = Throws
      /\ exists k a, (k, a) ∈ opera_map
           /\ Demo.agent_satisfies (mkAgent "opera" "12" "16" "0") (JString k)
              = Throws).
Proof.
  apply (version_map_lands_on_a_target Demo.agent_satisfies
           (mkAgent "opera" "12" "16" "0") opera_map);
    try (vm_compute; reflexivity); by vm_compute.
Defined.

Example opera_12_is_chrome_33 :
  resolve_aliases Demo.agent_satisfies (mkAgent "opera" "12" "16" "0")
  = Returns (mkAgent "chrome" "33" "0" "0").
Proof. vm_compute. reflexivity. Qed.

(** For UC Browser 10 the target is the detected family itself, at
    version 0. *)
Example uc_browser_10_is_uc_browser_0 :
  resolve_aliases Demo.agent_satisfies (mkAgent "uc browser" "10" "7" "0")
  = Returns (mkAgent "uc browser" "0" "0" "0").
Proof. vm_compute. reflexivity. Qed.

(** ** Canonical strings and records *)

Lemma split_dots_nonempty v : Js.split_dots v <> [].
Proof.
  destruct v as [|c v]; simpl; [done|].
  destruct (Ascii.eqb c "."); [done|]. by destruct (Js.split_dots v).
Qed.


Lemma split_dots_single v a : Js.split_dots v = [a] -> v = a.
Proof.
  revert a. induction v as [|c v IH]; intros a; simpl; [by intros [= <-]|].
  pose proof (split_dots_nonempty v).
  destruct (Ascii.eqb c ".").
  - destruct (Js.split_dots v); [done|]. intros [=].
  - destruct (Js.split_dots v) as [|x xs]; [done|].
    intros [= <- ->]. by rewrite (IH x).
Qed.

Lemma split_dots_cons v a b rest :
  Js.split_dots v = a :: b :: rest ->
  exists v', v = a +:+ String "." v' /\ Js.split_dots v' = b :: rest.
Proof.
  revert a. induction v as [|c v IH]; intros a; simpl; [done|].
  destruct (Ascii.eqb_spec c ".") as [->|_].
  - intros [= <- H]. by exists v.
  - destruct (Js.split_dots v) as [|x xs] eqn:Hv; [done|].
    intros [= <- ->]. destruct (IH x eq_refl) as (v' & -> & Hv').
    by exists v'.
Qed.



Lemma digits_run_spec x :
  digits_run x = true ->
  nonempty x = true /\ exists m, Js.Number x = Js.Num m.
Proof.
  unfold digits_run, Js.Number. intros [Hne ->]%andb_true_iff. eauto.
Qed.

(** What a match holds. *)
Lemma match_normalized_inv s n :
  match_normalized s = Some n ->
  exists name version,
    s = name +:+ String "/" version /\ nonempty name = true
    /\ Js.all_chars Js.is_word name = true
    /\ Js.all_chars digit_or_dot version = true
    /\ n1 n = name /\ digits_run (n2 n) = true
    /\ match n3 n, n4 n with
       | None, None => version = n2 n
       | Some b, None =>
           version = n2 n +:+ String "." b /\ digits_run b = true
       | Some b, Some c =>
           version = n2 n +:+ String "." (b +:+ String "." c)
           /\ digits_run b = true /\ digits_run c = true
       | None, Some _ => False
       end.
Proof.
  intros H.
  assert (Hs : is_Some (match_normalized s)) by eauto.
  apply match_normalized_shape in Hs as (name' & version' & Hs' & _ & Hw' & Hv').
  revert H. unfold match_normalized.
  destruct (Js.span Js.is_word s) as [name rest] eqn:Hspan.
  apply span_spec in Hspan as [-> Hw].
  destruct rest as [|c version]; [done|].
  destruct (Ascii.eqb_spec c "/") as [->|]; [|done].
  destruct (nonempty name) eqn:Hne; [|done]. simpl.
  intros H. exists name, version.
  assert (Hdd : Js.all_chars digit_or_dot version = true).
  { apply good_version_digit_or_dot. unfold good_version.
    destruct (Js.split_dots version) as [|a [|b [|d [|? ?]]]]; try done;
      by repeat case_match. }
  repeat split; try done;
    destruct (Js.split_dots version) as [|a [|b [|d [|? ?]]]] eqn:Hsplit;
    try done; repeat case_match; try done; simplify_eq;
    cbn [n1 n2 n3 n4] in *; simplify_eq;
    repeat (match goal with
            | H : (_ && _) = true |- _ => apply andb_true_iff in H as [? ?]
            end); try done.
  - by apply split_dots_single.
  - apply split_dots_cons in Hsplit as (v' & -> & Hv2).
    apply split_dots_single in Hv2 as ->. done.
  - apply split_dots_cons in Hsplit as (v' & -> & Hv2).
    apply split_dots_cons in Hv2 as (v'' & -> & Hv3).
    apply split_dots_single in Hv3 as ->. done.
Qed.

Lemma app_nil_r_s (a : string) : a +:+ "" = a.
Proof. induction a as [|c a IH]; [done|]. by rewrite app_cons, IH. Qed.

Lemma toVersion_full f ma mi pa m :
  nonempty ma = true -> nonempty mi = true -> nonempty pa = true ->
  Js.Number pa = Js.Num m ->
  toVersion (mkAgent f ma mi pa) = ma +:+ String "." (mi +:+ String "." pa).
Proof.
  intros Hma Hmi Hpa Hn. unfold toVersion; cbn [major minor patch].
  rewrite Hn. by destruct ma, mi, pa.
Qed.


Section Printing.

Variable re : string -> string * string * string * string.
Variable sv : Agent -> jsval -> outcome bool.

Lemma shape_test_short raw n :
  shape_test (Js.substr0 MAX_UA_LEN raw) = Some n ->
  Js.substr0 MAX_UA_LEN raw = raw /\ match_normalized raw = Some n.
Proof.
  unfold shape_test.
  destruct (Nat.ltb_spec (String.length (Js.substr0 MAX_UA_LEN raw)) 22)
    as [Hlt|]; [|done].
  rewrite length_substr0 in Hlt. unfold MAX_UA_LEN in *.
  rewrite substr0_all by lia. done.
Qed.

(** X12: on the canonical-shape shortcut the constructor returns a record
    that prints back as the input, with [.0] added for each version
    component the input lacks. *)
Theorem shortcut_prints_the_input (raw : string) (c : Cache) (n : Normalized) :
  shape_test (Js.substr0 MAX_UA_LEN raw) = Some n ->
  exists ua, result (UA re sv raw c) = Returns ua
    /\ getFamily ua +:+ "/" +:+ getVersion ua = raw +:+ padding n.
Proof.
  intros Hs. rewrite UA_run. cbv zeta. rewrite Hs.
  eexists. split; [reflexivity|].
  apply shape_test_short in Hs as [_ Hm].
  apply match_normalized_inv in Hm
    as (name & version & -> & Hne & _ & _ & Hn1 & Hn2 & Hrest).
  unfold agent_of_normalized, newAgent, getFamily, getVersion, padding.
  cbn [fst snd family]. rewrite Hn1.
  apply digits_run_spec in Hn2 as [Hne2 _].
  rewrite (or_else_id name), (or_else_id (n2 n)) by done.
  change ("/" +:+ ?x) with (String "/" x). rewrite app_assoc_s.
  rewrite app_cons. f_equal. f_equal.
  destruct (n3 n) as [b|], (n4 n) as [d|]; try done.
  - destruct Hrest as (-> & Hb & Hd).
    apply digits_run_spec in Hb as [Hb _].
    apply digits_run_spec in Hd as [Hd [m Hm]].
    cbn [or_0]. rewrite !(or_else_id b), !(or_else_id d) by done.
    rewrite (toVersion_full _ _ _ _ m) by done.
    by rewrite app_nil_r_s.
  - destruct Hrest as (-> & Hb).
    apply digits_run_spec in Hb as [Hb _].
    cbn [or_0]. rewrite !(or_else_id b) by done.
    rewrite (toVersion_full _ _ _ _ 0%N) by done.
    by rewrite app_assoc_s.
  - subst version. cbn [or_0].
    rewrite (toVersion_full _ _ _ _ 0%N) by done. done.
Qed.

(** X11: outside the canonical shape, [normalize] returns
    [family/major.minor.0] with a lowercase family and no component
    empty, or it raises because the constructor does. *)
Theorem normalize_prints_a_canonical_record (raw : string) (c : Cache) :
  reachable re sv c -> match_normalized raw = None ->
  (exists f ma mi,
     result (normalize re sv raw c)
     = Returns (f +:+ "/" +:+ ma +:+ "." +:+ mi +:+ ".0")
     /\ Js.toLowerCase f = f /\ nonempty f = true
     /\ nonempty ma = true /\ nonempty mi = true)
  \/ (result (normalize re sv raw c) = Throws
      /\ result (UA re sv raw c) = Throws).
Proof.
  intros Hc Hraw.
  rewrite normalize_run, Hraw. cbv zeta. unfold result at 1 3; cbn [fst snd].
  destruct (result (UA re sv raw c)) as [ua|] eqn:Hres; [left|by right].
  pose proof (UA_canonical re sv raw c ua Hc (shape_test_None raw Hraw) Hres)
    as Hua.
  unfold getFamily, getVersion. rewrite (canonical_toVersion _ Hua).
  destruct Hua as (Hne & Hlow & Hma & Hmi & _).
  exists (family ua), (major ua), (minor ua).
  repeat split; try done. by rewrite !app_assoc_s.
Qed.


End Printing.

Lemma shortcut_prints_the_input_witness :
  exists ua, result (Demo.UA "firefox/60.1" []) = Returns ua
    /\ getFamily ua +:+ "/" +:+ getVersion ua = "firefox/60.1" +:+ ".0".
Proof.
  apply (shortcut_prints_the_input Demo.ua_regexps Demo.agent_satisfies
           "firefox/60.1" [] (mkNormalized "firefox/60.1" "firefox" "60"
                                 (Some "1") None)).
  vm_compute. reflexivity.
Defined.

(** ** The further properties at concrete inputs *)

(** The cache after one classification from the empty cache. *)
Lemma demo_cache_reachable raw :
  reachable Demo.ua_regexps Demo.agent_satisfies
    (cache_after (Demo.UA raw [])).
Proof. apply reach_UA, reach_empty. Qed.

Lemma reachable_cache_is_bounded_witness :
  let c := cache_after (Demo.UA Demo.electron_ua []) in
  (length c <= cache_max)%nat /\ NoDup c.*1
  /\ forall k v, (k, v) ∈ c -> (String.length k <= MAX_UA_LEN)%nat.
Proof.
  apply (reachable_cache_is_bounded Demo.ua_regexps Demo.agent_satisfies).
  apply demo_cache_reachable.
Defined.

Lemma reachable_cache_holds_resolutions_witness :
  let v := tuple_of (mkAgent "chrome" "56" "0" "0") in
  exists ua,
    resolution Demo.ua_regexps Demo.agent_satisfies Demo.chrome_ua = Returns ua
    /\ v = tuple_of ua
    /\ agent_of_normalized v = ua
    /\ canonical ua.
Proof.
  apply (reachable_cache_holds_resolutions Demo.ua_regexps
           Demo.agent_satisfies (cache_after (Demo.UA Demo.electron_ua []))).
  - apply demo_cache_reachable.
  - vm_compute. reflexivity.
Defined.

Lemma classification_of_clean_input_witness :
  result (Demo.UA Demo.chrome_ua (cache_after (Demo.UA Demo.electron_ua [])))
  = result (Demo.UA Demo.chrome_ua []).
Proof.
  apply (classification_of_clean_input_ignores_cache Demo.ua_regexps
           Demo.agent_satisfies).
  - apply demo_cache_reachable.
  - vm_compute. reflexivity.
Defined.

Lemma satisfies_is_requested_and_known_witness :
  let ua := mkAgent "ie" "9" "0" "0" in
  satisfies Demo.agent_satisfies ua (JString ">=8")
  = and_then (Demo.agent_satisfies ua (JString ">=8"))
      (not_o (isUnknown Demo.agent_satisfies ua)).
Proof.
  apply (satisfies_is_requested_and_known Demo.agent_satisfies
           (mkAgent "ie" "9" "0" "0") (JString ">=8")).
  exact Demo_rejects_inherited.
Defined.

Lemma renamed_family_witness :
  let ua := mkAgent "edge" "17" "17134" "0" in
  Js.toLowerCase (family ua) = family ua
  /\ ((exists t, Rename "ie" = Rename t)
      \/ (exists a, Rename "ie" = RenameWithVersion a) ->
      exists ua' baseline,
        resolve_aliases Demo.agent_satisfies ua = Returns ua'
        /\ baseLineVersions !! family ua' = Some baseline
        /\ getBaseline ua' = JString baseline).
Proof.
  apply (renamed_family_has_a_baseline Demo.agent_satisfies
           (mkAgent "edge" "17" "17134" "0") (Rename "ie")).
  vm_compute. reflexivity.
Defined.

Lemma normalize_prints_witness :
  (exists f ma mi,
     result (Demo.normalize Demo.electron_ua [])
     = Returns (f +:+ "/" +:+ ma +:+ "." +:+ mi +:+ ".0")
     /\ Js.toLowerCase f = f /\ nonempty f = true
     /\ nonempty ma = true /\ nonempty mi = true)
  \/ (result (Demo.normalize Demo.electron_ua []) = Throws
      /\ result (Demo.UA Demo.electron_ua []) = Throws).
Proof.
  apply (normalize_prints_a_canonical_record Demo.ua_regexps
           Demo.agent_satisfies Demo.electron_ua []); [apply reach_empty|].
  vm_compute. reflexivity.
Defined.


Lemma UA_family_lowercase_witness :
  let ua := mkAgent "chrome" "46" "0" "0" in
  result (Demo.UA Demo.yandex_ua []) = Returns ua
  /\ Js.toLowerCase (getFamily ua) = getFamily ua.
Proof.
  split; [vm_compute; reflexivity|].
  apply (UA_family_lowercase Demo.ua_regexps Demo.agent_satisfies
           Demo.yandex_ua [] (mkAgent "chrome" "46" "0" "0"));
    [apply reach_empty | |]; vm_compute; reflexivity.
Defined.
